(** * YouTube transcript downloader: the processing engine of [myc_gui.py]

    A shallow embedding of the batch pipeline of [src/myc_gui.py]
    (configuration store, channel resolver, progress reconciliation,
    download engine, PDF paginator, archiver) and the properties the
    specification states about it.

    Conventions of the embedding.
    - A Python [str] is a Rocq [string]; the character classes
      ([str.isspace], [str.lower], the regular-expression class [\w]) are
      Python's classes restricted to ASCII, so statements that depend on
      them carry the hypothesis [ascii_text] on their inputs.
    - A Python [int] is a [Z]; [len] results and counters that only count
      up from zero are [nat].
    - A [set] of video ids is a [gset string]; a directory is a finite map
      from file names to file contents.
    - Exceptions are explicit: a function that can raise returns a
      [result].
    - The outside world (the transcript service, the stop and pause
      buttons, failures of the file system) is an explicit oracle that the
      functions consult. *)

From Stdlib Require Import ZArith Ascii String.
From stdpp Require Import gmap strings list fin_maps sorting.

Set Warnings "-register-all".

Local Open Scope string_scope.
Local Open Scope list_scope.

(** ** Python string primitives (ASCII) *)

Module Str.

Definition code (c : ascii) : N := N_of_ascii c.

Definition is_ascii_char (c : ascii) : bool := (code c <? 128)%N.

Fixpoint all_chars (P : ascii → bool) (s : string) : bool :=
  match s with
  | "" => true
  | String c s' => P c && all_chars P s'
  end.

Fixpoint any_char (P : ascii → bool) (s : string) : bool :=
  match s with
  | "" => false
  | String c s' => P c || any_char P s'
  end.

(** The inputs on which the ASCII character classes below agree with
    Python's Unicode ones. *)
Definition ascii_text (s : string) : bool := all_chars is_ascii_char s.

(** [str.isspace] on ASCII: TAB, LF, VT, FF, CR, FS, GS, RS, US, SPACE. *)
Definition isspace (c : ascii) : bool :=
  let n := code c in
  ((9 <=? n) && (n <=? 13) || (28 <=? n) && (n <=? 32))%N.

Definition isupper (c : ascii) : bool :=
  let n := code c in ((65 <=? n) && (n <=? 90))%N.

Definition islower (c : ascii) : bool :=
  let n := code c in ((97 <=? n) && (n <=? 122))%N.

Definition isdigit (c : ascii) : bool :=
  let n := code c in ((48 <=? n) && (n <=? 57))%N.

(** The class [\w] of [re] on ASCII: letters, digits and the underscore. *)
Definition is_word (c : ascii) : bool :=
  isupper c || islower c || isdigit c || Ascii.eqb c "_".

(** A digit of [hexdigest]. *)
Definition is_hex (c : ascii) : bool :=
  let n := code c in isdigit c || ((97 <=? n) && (n <=? 102))%N.

Definition lower_char (c : ascii) : ascii :=
  if isupper c then ascii_of_N (code c + 32) else c.

Fixpoint map_chars (f : ascii → ascii) (s : string) : string :=
  match s with
  | "" => ""
  | String c s' => String (f c) (map_chars f s')
  end.

(** [s.lower()] *)
Definition lower (s : string) : string := map_chars lower_char s.

Fixpoint lstrip_by (P : ascii → bool) (s : string) : string :=
  match s with
  | "" => ""
  | String c s' => if P c then lstrip_by P s' else s
  end.

Fixpoint rstrip_by (P : ascii → bool) (s : string) : string :=
  match s with
  | "" => ""
  | String c s' =>
      match rstrip_by P s' with
      | "" => if P c then "" else String c ""
      | r => String c r
      end
  end.

(** [s.strip()]: whitespace removed at both ends. *)
Definition strip (s : string) : string :=
  rstrip_by isspace (lstrip_by isspace s).

(** [s.rstrip('/')] *)
Definition rstrip_slash (s : string) : string :=
  rstrip_by (Ascii.eqb "/") s.

(** [s[:n]] *)
Fixpoint take (n : nat) (s : string) : string :=
  match n, s with
  | S k, String c s' => String c (take k s')
  | _, _ => ""
  end.

Fixpoint drop (n : nat) (s : string) : string :=
  match n, s with
  | S k, String _ s' => drop k s'
  | _, _ => s
  end.

Fixpoint filter_chars (P : ascii → bool) (s : string) : string :=
  match s with
  | "" => ""
  | String c s' =>
      if P c then String c (filter_chars P s') else filter_chars P s'
  end.

(** [key in s] for strings. *)
Fixpoint contains (key s : string) : bool :=
  String.prefix key s ||
  match s with
  | "" => false
  | String _ s' => contains key s'
  end.

(** [s.split(sep)] for a non-empty separator: occurrences are found from
    the left and do not overlap.  [skip] counts the characters of a
    matched separator that are still to be passed over, [cur] is the
    piece being collected. *)
Fixpoint split_go (sep : string) (skip : nat) (cur s : string)
  : list string :=
  match s with
  | "" => [cur]
  | String c s' =>
      match skip with
      | S k => split_go sep k cur s'
      | O =>
          if String.prefix sep s
          then cur :: split_go sep (String.length sep - 1) "" s'
          else split_go sep 0 (cur +:+ String c "") s'
      end
  end.

Definition split (sep s : string) : list string := split_go sep 0 "" s.

(** [s.split(sep)[-1]] *)
Definition split_last (sep s : string) : string :=
  List.last (split sep s) "".

(** [s.split()]: the maximal runs of non-whitespace characters. *)
Fixpoint split_ws_go (cur s : string) : list string :=
  match s with
  | "" => match cur with "" => [] | _ => [cur] end
  | String c s' =>
      if isspace c
      then match cur with
           | "" => split_ws_go "" s'
           | _ => cur :: split_ws_go "" s'
           end
      else split_ws_go (cur +:+ String c "") s'
  end.

Definition split_ws (s : string) : list string := split_ws_go "" s.

(** [s.replace(old, new)] for a one-character [old]. *)
Fixpoint replace_char (old : ascii) (new s : string) : string :=
  match s with
  | "" => ""
  | String c s' =>
      if Ascii.eqb c old
      then new +:+ replace_char old new s'
      else String c (replace_char old new s')
  end.

(** [sep.join(parts)] *)
Fixpoint join (sep : string) (parts : list string) : string :=
  match parts with
  | [] => ""
  | [p] => p
  | p :: rest => p +:+ sep +:+ join sep rest
  end.

Fixpoint last_char (s : string) : option ascii :=
match s with
| "" => None
| String c "" => Some c
| String _ s' => last_char s'
end.

Definition ends_with (suffix s : string) : bool :=
  let n := String.length s - String.length suffix in
  (String.length suffix <=? String.length s)%nat
  && String.eqb (drop n s) suffix.

End Str.

(** ** [hashlib.md5] (RFC 1321), on bytes represented as [Z] *)

Module MD5.
Local Open Scope Z_scope.

Definition two32 : Z := 4294967296.

Definition add32 (x y : Z) : Z := (x + y) mod two32.

Definition not32 (x : Z) : Z := Z.lxor x 0xFFFFFFFF.

Definition rotl32 (x n : Z) : Z :=
  (Z.lor (Z.shiftl x n) (Z.shiftr x (32 - n))) mod two32.

Definition K : list Z :=
  [ 0xd76aa478; 0xe8c7b756; 0x242070db; 0xc1bdceee;
    0xf57c0faf; 0x4787c62a; 0xa8304613; 0xfd469501;
    0x698098d8; 0x8b44f7af; 0xffff5bb1; 0x895cd7be;
    0x6b901122; 0xfd987193; 0xa679438e; 0x49b40821;
    0xf61e2562; 0xc040b340; 0x265e5a51; 0xe9b6c7aa;
    0xd62f105d; 0x02441453; 0xd8a1e681; 0xe7d3fbc8;
    0x21e1cde6; 0xc33707d6; 0xf4d50d87; 0x455a14ed;
    0xa9e3e905; 0xfcefa3f8; 0x676f02d9; 0x8d2a4c8a;
    0xfffa3942; 0x8771f681; 0x6d9d6122; 0xfde5380c;
    0xa4beea44; 0x4bdecfa9; 0xf6bb4b60; 0xbebfbc70;
    0x289b7ec6; 0xeaa127fa; 0xd4ef3085; 0x04881d05;
    0xd9d4d039; 0xe6db99e5; 0x1fa27cf8; 0xc4ac5665;
    0xf4292244; 0x432aff97; 0xab9423a7; 0xfc93a039;
    0x655b59c3; 0x8f0ccc92; 0xffeff47d; 0x85845dd1;
    0x6fa87e4f; 0xfe2ce6e0; 0xa3014314; 0x4e0811a1;
    0xf7537e82; 0xbd3af235; 0x2ad7d2bb; 0xeb86d391 ].

Definition shifts : list Z :=
  [ 7; 12; 17; 22; 7; 12; 17; 22; 7; 12; 17; 22; 7; 12; 17; 22;
    5; 9; 14; 20; 5; 9; 14; 20; 5; 9; 14; 20; 5; 9; 14; 20;
    4; 11; 16; 23; 4; 11; 16; 23; 4; 11; 16; 23; 4; 11; 16; 23;
    6; 10; 15; 21; 6; 10; 15; 21; 6; 10; 15; 21; 6; 10; 15; 21 ].

Record state := State { sa : Z; sb : Z; sc : Z; sd : Z }.

Definition init : state :=
  State 0x67452301 0xefcdab89 0x98badcfe 0x10325476.

(** The 32-bit little-endian word number [j] of a 64-byte block. *)
Definition word_at (block : list Z) (j : nat) : Z :=
  let b k := nth (4 * j + k) block 0 in
  b 0%nat + b 1%nat * 256 + b 2%nat * 65536 + b 3%nat * 16777216.

Definition step (block : list Z) (st : state) (i : nat) : state :=
  let '(State a b c d) := st in
  let '(f, g) :=
    if (i <? 16)%nat then
      (Z.lor (Z.land b c) (Z.land (not32 b) d), i)
    else if (i <? 32)%nat then
      (Z.lor (Z.land d b) (Z.land (not32 d) c), ((5 * i + 1) mod 16)%nat)
    else if (i <? 48)%nat then
      (Z.lxor b (Z.lxor c d), ((3 * i + 5) mod 16)%nat)
    else
      (Z.lxor c (Z.lor b (not32 d)), ((7 * i) mod 16)%nat) in
  let f' := add32 (add32 (add32 f a) (nth i K 0)) (word_at block g) in
  State d (add32 b (rotl32 f' (nth i shifts 0))) b c.

Definition compress (st : state) (block : list Z) : state :=
  let '(State a b c d) := foldl (step block) st (seq 0 64) in
  State (add32 (sa st) a) (add32 (sb st) b)
        (add32 (sc st) c) (add32 (sd st) d).

(** [n] little-endian bytes of [x]. *)
Fixpoint le_bytes (n : nat) (x : Z) : list Z :=
  match n with
  | O => []
  | S k => x mod 256 :: le_bytes k (x / 256)
  end.

Definition pad (msg : list Z) : list Z :=
  let len := Z.of_nat (length msg) in
  msg ++ [128] ++ replicate (Z.to_nat ((55 - len) mod 64)) 0
      ++ le_bytes 8 ((8 * len) mod 18446744073709551616).

Fixpoint blocks (fuel : nat) (bytes : list Z) : list (list Z) :=
  match fuel, bytes with
  | S k, _ :: _ => firstn 64 bytes :: blocks k (skipn 64 bytes)
  | _, _ => []
  end.

Definition digest_state (msg : list Z) : state :=
  let p := pad msg in
  foldl compress init (blocks (length p) p).

Definition hex_digit (n : Z) : ascii :=
  match n mod 16 with
  | 0 => "0" | 1 => "1" | 2 => "2" | 3 => "3" | 4 => "4" | 5 => "5"
  | 6 => "6" | 7 => "7" | 8 => "8" | 9 => "9" | 10 => "a" | 11 => "b"
  | 12 => "c" | 13 => "d" | 14 => "e" | _ => "f"
  end%char.

Definition hex_byte (b : Z) : string :=
  String (hex_digit (b / 16)) (String (hex_digit b) "").

Definition hex_word (x : Z) : string :=
  Str.join "" (hex_byte <$> le_bytes 4 x).

(** [hashlib.md5(data).hexdigest()] *)
Definition hexdigest (msg : list Z) : string :=
  let '(State a b c d) := digest_state msg in
  (hex_word a +:+ hex_word b +:+ hex_word c +:+ hex_word d)%string.

(** [s.encode()]: UTF-8, the identity on the codes of ASCII text. *)
Fixpoint encode (s : string) : list Z :=
  match s with
  | "" => []
  | String c s' => Z.of_N (Str.code c) :: encode s'
  end.

End MD5.

(** ** Exceptions *)

Inductive exn :=
| JSONDecodeError
| IndexError
| KeyError
| TypeError
| AttributeError.

Inductive result (A : Type) :=
| Ok (a : A)
| Raise (e : exn).
Arguments Ok {A} a.
Arguments Raise {A} e.

(** ** Configuration store: [DEFAULT_CONFIG], [load_config], [save_config] *)

Module Config.

(** What [json.load] returns.  A Python [dict] keeps its keys in insertion
    order, so an object is an association list with distinct keys. *)
Inductive json :=
| JNull
| JBool (b : bool)
| JNum (n : Z)
| JStr (s : string)
| JArr (items : list json)
| JObj (fields : list (string * json)).

Definition dict := list (string * json).

(** [key in d] *)
Definition has_key (key : string) (d : dict) : bool :=
  existsb (λ kv, String.eqb (fst kv) key) d.

(** [d.get(key)], with [None] for Python's [None]. *)
Fixpoint get (key : string) (d : dict) : option json :=
  match d with
  | [] => None
  | (k, v) :: d' => if String.eqb k key then Some v else get key d'
  end.

(** [d[key] = v]: an existing key keeps its position. *)
Fixpoint set (key : string) (v : json) (d : dict) : dict :=
  match d with
  | [] => [(key, v)]
  | (k, v') :: d' =>
      if String.eqb k key then (k, v) :: d' else (k, v') :: set key v d'
  end.

(** Truth value of a Python object. *)
Definition truthy (j : json) : bool :=
  match j with
  | JNull => false
  | JBool b => b
  | JNum n => negb (n =? 0)%Z
  | JStr s => negb (String.eqb s "")
  | JArr items => match items with [] => false | _ => true end
  | JObj fields => match fields with [] => false | _ => true end
  end.

(** [j[0]] *)
Definition item0 (j : json) : result json :=
  match j with
  | JArr (x :: _) => Ok x
  | JArr [] => Raise IndexError
  | JStr (String c _) => Ok (JStr (String c ""))
  | JStr "" => Raise IndexError
  | JObj _ => Raise KeyError
  | JNull | JBool _ | JNum _ => Raise TypeError
  end.

Fixpoint chars (s : string) : list json :=
  match s with
  | "" => []
  | String c s' => JStr (String c "") :: chars s'
  end.

(** [for x in j], for the values that reach the comprehension of
    [load_config]: [j[0]] has already been evaluated. *)
Definition iterate (j : json) : list json :=
  match j with
  | JArr items => items
  | JStr s => chars s
  | _ => []
  end.

Definition is_str (j : json) : bool :=
  match j with JStr _ => true | _ => false end.

Definition is_list (j : json) : bool :=
  match j with JArr _ => true | _ => false end.

Definition channel_entry (url : json) : json :=
  JObj [("url", url); ("completed", JBool false)].

Definition DEFAULT_CONFIG : dict :=
  [ ("channels",
     JArr [ channel_entry (JStr "https://www.youtube.com/@drekberg");
            channel_entry (JStr "https://www.youtube.com/c/paulsaladinomd") ]);
    ("requests_per_hour", JNum 300);
    ("delay_between_requests", JNum 6);
    ("max_retries", JNum 3);
    ("retry_delay", JNum 30);
    ("batch_size", JNum 50);
    ("playlist_end", JNum 0);
    ("pause_between_batches", JNum 300);
    ("max_words_per_pdf", JNum 490000) ].

(** [CONFIG_FILE] on disk: missing, or holding text that [json.load]
    rejects, or holding a JSON document. *)
Inductive config_file :=
| Absent
| Malformed
| Document (j : json).

(** The body of the [try] of [load_config]: [json.load] and the migration
    of a list of plain strings.  The boolean is [config_to_save]. *)
Definition read_and_migrate (file : config_file) : result (dict * bool) :=
  match file with
  | Absent => Raise AttributeError (* not reached: guarded by os.path.exists *)
  | Malformed => Raise JSONDecodeError
  | Document (JObj config) =>
      match get "channels" config with
      | None => Ok (config, false)
      | Some channels =>
          if truthy channels then
            match item0 channels with
            | Raise e => Raise e
            | Ok first =>
                if is_str first
                then Ok (set "channels"
                           (JArr (channel_entry <$> iterate channels))
                           config, true)
                else Ok (config, false)
            end
          else Ok (config, false)
      end
  | Document _ => Raise AttributeError (* no method [get] *)
  end.

(** [for key, value in DEFAULT_CONFIG.items(): if key not in config: ...] *)
Fixpoint fill_defaults (defaults : dict) (config : dict) (to_save : bool)
  : dict * bool :=
  match defaults with
  | [] => (config, to_save)
  | (key, value) :: rest =>
      if has_key key config
      then fill_defaults rest config to_save
      else fill_defaults rest (set key value config) true
  end.

(** [save_config]: [json.dump] of the configuration into [CONFIG_FILE]. *)
Definition save_config (config : dict) : config_file :=
  Document (JObj config).

(** Lines 74 to 87 of [load_config]: the default keys, the check of the
    channels and the saving; gives the configuration returned and the file
    afterwards. *)
Definition complete (file : config_file) (config : dict) (to_save : bool)
  : dict * config_file :=
  let '(config, to_save) := fill_defaults DEFAULT_CONFIG config to_save in
  let not_a_list :=
    negb (has_key "channels" config)
    || negb (from_option is_list false (get "channels" config)) in
  let '(config, to_save) :=
    if not_a_list
    then (set "channels" (JArr []) config, true)
    else (config, to_save) in
  (config, if to_save then save_config config else file).

(** [load_config]: the configuration returned and the file afterwards, or
    the exception that leaves the function. *)
Definition load_config (file : config_file) : result (dict * config_file) :=
  let loaded :=
    match file with
    | Absent => Ok (DEFAULT_CONFIG, true)
    | _ =>
        match read_and_migrate file with
        | Ok r => Ok r
        | Raise JSONDecodeError | Raise IndexError => Ok (DEFAULT_CONFIG, true)
        | Raise e => Raise e
        end
    end in
  match loaded with
  | Raise e => Raise e
  | Ok (config, to_save) => Ok (complete file config to_save)
  end.

End Config.

(** ** Channel resolver: [generate_channel_id], [extract_channel_name] *)

(** [channel_url.strip().lower().rstrip('/')] *)
Definition normalize_url (channel_url : string) : string :=
  Str.rstrip_slash (Str.lower (Str.strip channel_url)).

Definition generate_channel_id (channel_url : string) : string :=
  let normalized_url := normalize_url channel_url in
  Str.take 12 (MD5.hexdigest (MD5.encode normalized_url)).

(** The characters that the first [re.sub] of [extract_channel_name] and of
    [save_transcript] removes: less-than, greater-than, colon, double quote,
    slash, backslash, vertical bar, question mark and asterisk. *)
Definition illegal_char (c : ascii) : bool :=
  existsb (Ascii.eqb c)
    [ "<"; ">"; ":"; ascii_of_nat 34; "/"; "\"; "|"; "?"; "*" ]%char.

(** The characters of the class [[^\w\-_.]]. *)
Definition unsafe_char (c : ascii) : bool :=
  negb (Str.is_word c || Ascii.eqb c "-" || Ascii.eqb c "_" || Ascii.eqb c ".").

(** [re.sub] of the class of illegal characters by the empty string. *)
Definition remove_illegal (s : string) : string :=
  Str.filter_chars (λ c, negb (illegal_char c)) s.

(** [re.sub(r'[^\w\-_.]', '_', s)] *)
Definition underscore_unsafe (s : string) : string :=
  Str.map_chars (λ c, if unsafe_char c then "_"%char else c) s.

(** The dictionary [patterns], in insertion order. *)
Definition patterns : list (string * string) :=
  [ ("/@", "/@"); ("/c/", "/c/"); ("/channel/", "/channel/");
    ("/user/", "/user/") ].

(** The [for ... else] of [extract_channel_name]. *)
Fixpoint name_after (pats : list (string * string)) (url : string) : string :=
  match pats with
  | [] => Str.split_last "/" url
  | (key, split_by) :: rest =>
      if Str.contains key url
      then Str.split_last split_by url
      else name_after rest url
  end.

(** The characters that [extract_channel_name] can leave in a name. *)
Definition safe_char (c : ascii) : bool :=
  Str.is_word c || Ascii.eqb c "-" || Ascii.eqb c ".".

(** Follows the specification's words, for comparison with the code: the
    path segment that follows the first of the markers, in their priority
    order, or else the final path segment; illegal characters removed and
    every other non-word character replaced by an underscore. *)
Fixpoint after_first (marker s : string) : option string :=
  if String.prefix marker s
  then Some (Str.drop (String.length marker) s)
  else match s with
       | "" => None
       | String _ s' => after_first marker s'
       end.

Fixpoint until_slash (s : string) : string :=
  match s with
  | "" => ""
  | String c s' => if Ascii.eqb c "/" then "" else String c (until_slash s')
  end.

Fixpoint segment_after (markers : list string) (url : string)
  : option string :=
  match markers with
  | [] => None
  | marker :: rest =>
      match after_first marker url with
      | Some text => Some (until_slash text)
      | None => segment_after rest url
      end
  end.

Definition channel_name_as_specified (url : string) : string :=
  let segment :=
    default (Str.split_last "/" url) (segment_after (patterns.*1) url) in
  Str.map_chars (λ c, if Str.is_word c then c else "_"%char)
    (remove_illegal segment).

Definition extract_channel_name (channel_url : string) : string :=
  let url := Str.rstrip_slash channel_url in
  let name := name_after patterns url in
  let name := remove_illegal name in
  underscore_unsafe name.

(** ** The world of one channel

    Logging, sleeping and the rendering of a PDF by [reportlab] do not
    change the data below and are left out; writes into the transcript and
    PDF directories are taken to succeed. *)

Record failed_entry := FailedEntry {
  failed_id : string;
  failed_reason : string
}.

(** The progress dictionary; [None] is an absent key. *)
Record progress := Progress {
  channel_url : option string;
  channel_name : option string;
  channel_id : option string;
  completed_videos : option (list string);
  failed_videos : option (list failed_entry)
}.

(** [{}], what [load_progress] returns without a progress file. *)
Definition empty_progress : progress := Progress None None None None None.

Record video_info := VideoInfo {
  video_id : string;
  video_title : string
}.

(** The pieces of a [story]. *)
Inductive flowable :=
| Title (channel_name : string) (pdf_number : nat)
| PageBreak
| FileName (text : string)
| Content (text : string).

Inductive zip_entry :=
| TranscriptEntry (name content : string)
| ProgressEntry (p : progress).

(** A zip file: the members written so far, and whether the archive was
    closed after the last of them. *)
Record zip_archive := Zip {
  members : list zip_entry;
  complete : bool
}.

(** The directory [pdf_<name>_<id>]: the built documents by part number
    (the file [<channel_name>_<n>.pdf]) and the archive. *)
Record pdf_folder := PdfFolder {
  pdfs : gmap nat (list flowable);
  archive : option zip_archive
}.

Record world := World {
  progress_file : option progress;
  transcript_dir : option (gmap string string);
  pdf_dir : option pdf_folder;
  (** the video ids passed to [YouTubeTranscriptApi.get_transcript] so
      far, oldest first *)
  api_calls : list string;
  (** how often [is_running] has been read *)
  running_reads : nat
}.

(** What [get_transcript] does: the caption lines, or [TranscriptsDisabled]
    / [NoTranscriptFound] with [str(e)], or any other exception. *)
Inductive fetch_result :=
| Transcript (lines : list string)
| Unavailable (reason : string)
| OtherError (message : string).

(** The environment: the stop button as seen by each read of
    [is_running], the number of reads a call of [check_pause] spends
    waiting (every pause ends), the transcript service by call number, and
    the failures of the archiver's file operations. *)
Record env := Env {
  is_running : nat → bool;
  pause_reads : nat → nat;
  get_transcript : nat → string → fetch_result;
  (** [Some k]: the [k]-th operation on the zip file raises (0 is the
      opening, then one per member, then the closing) *)
  zip_fault : option nat;
  (** [Some k]: [shutil.rmtree] raises after removing [k] files *)
  rmtree_fault : option nat;
  (** [os.remove] raises *)
  remove_fault : bool
}.

(** The value of [delay_between_requests]. *)
Inductive delay_setting :=
| RandomDelay
| Seconds (n : Z)
| Unparsable.

(** The settings the engine reads. *)
Record config := Cfg {
  max_retries : Z;
  delay_between_requests : delay_setting;
  retry_delay : Z;
  max_words_per_pdf : Z
}.

Definition set_progress_file (f : option progress) (w : world) : world :=
  World f (transcript_dir w) (pdf_dir w) (api_calls w) (running_reads w).

Definition set_transcript_dir (d : option (gmap string string)) (w : world)
  : world :=
  World (progress_file w) d (pdf_dir w) (api_calls w) (running_reads w).

Definition set_pdf_dir (d : option pdf_folder) (w : world) : world :=
  World (progress_file w) (transcript_dir w) d (api_calls w) (running_reads w).

Definition set_api_calls (l : list string) (w : world) : world :=
  World (progress_file w) (transcript_dir w) (pdf_dir w) l (running_reads w).

Definition set_running_reads (n : nat) (w : world) : world :=
  World (progress_file w) (transcript_dir w) (pdf_dir w) (api_calls w) n.

(** [self.is_running.is_set()] *)
Definition read_running (e : env) (w : world) : bool * world :=
  (is_running e (running_reads w), set_running_reads (S (running_reads w)) w).

(** [check_pause]: waits while the pause button is set. *)
Definition check_pause (e : env) (w : world) : world :=
  set_running_reads (running_reads w + pause_reads e (running_reads w)) w.

Fixpoint countdown (e : env) (n : nat) (w : world) : world :=
  match n with
  | O => w
  | S k =>
      let '(running, w) := read_running e w in
      if running then countdown e k (check_pause e w) else w
  end.

(** [wait_with_countdown(seconds)]: [for i in range(seconds, 0, -1)]. *)
Definition wait_with_countdown (e : env) (seconds : Z) (w : world) : world :=
  countdown e (Z.to_nat seconds) w.

(** ** Progress store *)

Definition load_progress (w : world) : progress :=
  default empty_progress (progress_file w).

Definition save_progress (p : progress) (w : world) : world :=
  set_progress_file (Some p) w.

Definition newline : string := String (ascii_of_nat 10) "".

(** The regular expression [\((\w{11})\)\.txt$] tried at the start of [s]:
    the group on a match.  Python's [$] matches at the end of the string
    and before a line feed that ends it. *)
Definition match_here (s : string) : option string :=
  match s with
  | "" => None
  | String c r =>
      let group := Str.take 11 r in
      let rest := Str.drop 11 r in
      if Ascii.eqb c "("
         && (String.length group =? 11)%nat
         && Str.all_chars Str.is_word group
         && (String.eqb rest ").txt" || String.eqb rest (").txt" +:+ newline))
      then Some group
      else None
  end.

(** [re.search(r'\((\w{11})\)\.txt$', f)], giving [m.group(1)]. *)
Fixpoint search_id (f : string) : option string :=
  match match_here f with
  | Some group => Some group
  | None =>
      match f with
      | "" => None
      | String _ f' => search_id f'
      end
  end.

Definition get_existing_transcripts (output_dir : option (gmap string string))
  : gset string :=
  match output_dir with
  | None => ∅
  | Some files => set_omap search_id (dom files)
  end.

(** Line 181 of the source: the completed list becomes the union of the
    recorded list and the scanned ids (in the arbitrary order of a set). *)
Definition reconcile (p : progress) (existing_ids : gset string) : progress :=
  Progress (channel_url p) (channel_name p) (channel_id p)
    (Some (elements (list_to_set (default [] (completed_videos p))
                     ∪ existing_ids)))
    (failed_videos p).

(** Line 182 of the source. *)
Definition remaining_videos (p : progress) (video_infos : list video_info)
  : list video_info :=
  filter (λ v, video_id v ∉ default [] (completed_videos p)) video_infos.

(** ** Download engine *)

(** [progress.setdefault('completed_videos', []).append(video_id)] *)
Definition add_completed (id : string) (p : progress) : progress :=
  Progress (channel_url p) (channel_name p) (channel_id p)
    (Some (default [] (completed_videos p) ++ [id]))
    (failed_videos p).

(** [progress.setdefault('failed_videos', []).append({'id': ..., 'reason': ...})] *)
Definition add_failed (id reason : string) (p : progress) : progress :=
  Progress (channel_url p) (channel_name p) (channel_id p)
    (completed_videos p)
    (Some (default [] (failed_videos p) ++ [FailedEntry id reason])).

(** The path that [save_transcript] writes, inside [output_dir]:
    [f"{clean_title} ({video_id}).txt"]. *)
Definition transcript_name (id title : string) : string :=
  let clean_title := Str.take 150 (remove_illegal title) in
  clean_title +:+ " (" +:+ id +:+ ").txt".

Definition save_transcript (id title : string) (lines : list string)
  (w : world) : world :=
  set_transcript_dir
    (Some (<[transcript_name id title := Str.join newline lines]>
             (default ∅ (transcript_dir w))))
    w.

(** Whether computing the delay and [time.sleep(delay)] return: [float] of
    the setting must exist and the sleep must not be negative. *)
Definition delay_raises (d : delay_setting) : bool :=
  match d with
  | RandomDelay => false
  | Seconds n => (n <? 0)%Z
  | Unparsable => true
  end.

(** The [while retries < max_retries] loop.  Every iteration returns or
    increases [retries], so [fuel] iterations suffice. *)
Fixpoint attempts (e : env) (cfg : config) (id title : string)
  (fuel : nat) (retries : Z) (w : world) (p : progress)
  : bool * world * progress :=
  match fuel with
  | O => (false, w, p)
  | S fuel' =>
      if (retries <? max_retries cfg)%Z then
        let w := check_pause e w in
        let '(running, w) := read_running e w in
        if negb running then (false, w, p)
        else
          let retry w :=
            let retries := (retries + 1)%Z in
            let w :=
              if (retries <? max_retries cfg)%Z
              then wait_with_countdown e (retry_delay cfg) w
              else w in
            attempts e cfg id title fuel' retries w p in
          if delay_raises (delay_between_requests cfg) then retry w
          else
            let answer := get_transcript e (length (api_calls w)) id in
            let w := set_api_calls (api_calls w ++ [id]) w in
            match answer with
            | Transcript lines =>
                (true, save_transcript id title lines w, add_completed id p)
            | Unavailable reason => (true, w, add_failed id reason p)
            | OtherError _ => retry w
            end
      else (false, w, p)
  end.

Definition download_single_transcript (e : env) (cfg : config)
  (id title : string) (w : world) (p : progress) : bool * world * progress :=
  attempts e cfg id title (Z.to_nat (max_retries cfg)) 0 w p.

(** ** PDF paginator *)

(** The text of [s] before its last [c], if [c] occurs. *)
Fixpoint before_last (c : ascii) (s : string) : option string :=
  match s with
  | "" => None
  | String a s' =>
      match before_last c s' with
      | Some r => Some (String a r)
      | None => if Ascii.eqb a c then Some "" else None
      end
  end.

(** [name.rsplit('.', 1)[0]] *)
Definition stem (name : string) : string :=
  default name (before_last "." name).

(** Line 325 of the source: [content.replace('&', '&').replace('<', '<')]. *)
Definition escape (content : string) : string :=
  Str.replace_char "<" "<" (Str.replace_char "&" "&" content).

(** The pattern [*.txt] of [glob]: hidden files are not matched. *)
Definition glob_txt (name : string) : bool :=
  Str.ends_with ".txt" name && negb (String.prefix "." name).

Definition name_le (a b : string * string) : Prop := String.le a.1 b.1.

Global Instance name_le_dec : RelDecision name_le.
Proof. intros a b. unfold name_le. apply _. Defined.

(** [sorted(glob.glob(os.path.join(transcript_folder, "*.txt")))], each
    file with the text that [f.read()] gives. *)
Definition txt_files (folder : option (gmap string string))
  : list (string * string) :=
  match folder with
  | None => []
  | Some files =>
      merge_sort name_le
        (filter (λ f, glob_txt f.1 = true) (map_to_list files))
  end.

(** [len(content.split())] *)
Definition count_words (content : string) : nat :=
  length (Str.split_ws content).

(** The local variables of [create_pdfs_from_transcripts], and the
    documents that [doc.build] has written, oldest first. *)
Record paginator := Paginator {
  pdf_number : nat;
  word_count : nat;
  files_in_pdf : nat;
  story : list flowable;
  built : list (nat * list flowable)
}.

Definition start (channel_name : string) : paginator :=
  Paginator 1 0 0 [Title channel_name 1] [].

(** The test of line 319. *)
Definition overflows (cfg : config) (st : paginator) (file_word_count : nat)
  : bool :=
  (max_words_per_pdf cfg <? Z.of_nat (word_count st + file_word_count))%Z
  && (0 <? files_in_pdf st)%nat.

(** Lines 320 to 324: build the current document and open the next. *)
Definition close_document (channel_name : string) (st : paginator)
  : paginator :=
  Paginator (S (pdf_number st)) 0 0
    [Title channel_name (S (pdf_number st))]
    (built st ++ [(pdf_number st, story st)]).

(** One iteration of [for txt_file in txt_files]. *)
Definition add_file (cfg : config) (channel_name : string) (st : paginator)
  (file : string * string) : paginator :=
  let content := Str.strip file.2 in
  let file_word_count := count_words content in
  let st :=
    if overflows cfg st file_word_count
    then close_document channel_name st
    else st in
  Paginator (pdf_number st)
    (word_count st + file_word_count)
    (S (files_in_pdf st))
    (story st ++ [PageBreak; FileName (stem file.1); Content (escape content)])
    (built st).

(** The documents built for a sorted list of files, oldest first. *)
Definition paginate (cfg : config) (channel_name : string)
  (files : list (string * string)) : list (nat * list flowable) :=
  match files with
  | [] => []
  | _ =>
      let st := foldl (add_file cfg channel_name) (start channel_name) files in
      if (0 <? files_in_pdf st)%nat
      then built st ++ [(pdf_number st, story st)]
      else built st
  end.

Definition write_pdfs (docs : list (nat * list flowable)) (folder : pdf_folder)
  : pdf_folder :=
  PdfFolder (foldl (λ m d, <[d.1 := d.2]> m) (pdfs folder) docs)
            (archive folder).

Definition empty_folder : pdf_folder := PdfFolder ∅ None.

Definition create_pdfs_from_transcripts (cfg : config)
  (channel_name : string) (w : world) : bool * world :=
  let folder := default empty_folder (pdf_dir w) in
  let docs := paginate cfg channel_name (txt_files (transcript_dir w)) in
  (true, set_pdf_dir (Some (write_pdfs docs folder)) w).

(** ** Archiver *)

(** What the archive is to hold: the files of the transcript directory and
    the progress file. *)
Definition archive_members (w : world) : list zip_entry :=
  match transcript_dir w with
  | Some files => (λ f, TranscriptEntry f.1 f.2) <$> map_to_list files
  | None => []
  end
  ++ match progress_file w with
     | Some p => [ProgressEntry p]
     | None => []
     end.

(** The [with zipfile.ZipFile(...)] block; the boolean is false when an
    operation on the zip file raised, and the world then holds the members
    written before it. *)
Definition write_archive (e : env) (w : world) : world * bool :=
  let ms := archive_members w in
  match pdf_dir w with
  | None => (w, false)
  | Some folder =>
      let put z := set_pdf_dir (Some (PdfFolder (pdfs folder) (Some z))) w in
      match zip_fault e with
      | Some O => (w, false)
      | Some (S k) =>
          if (k <? length ms)%nat then (put (Zip (take k ms) false), false)
          else if (k =? length ms)%nat then (put (Zip ms false), false)
          else (put (Zip ms true), true)
      | None => (put (Zip ms true), true)
      end
  end.

(** [shutil.rmtree(transcript_dir)], which may stop part of the way. *)
Definition rmtree (e : env) (w : world) : world * bool :=
  match transcript_dir w with
  | None => (w, true)
  | Some files =>
      match rmtree_fault e with
      | None => (set_transcript_dir None w, true)
      | Some k =>
          let removed := take k (map_to_list files) in
          (set_transcript_dir
             (Some (foldl (λ m f, delete f.1 m) files removed)) w, false)
      end
  end.

(** [os.remove(progress_file)] *)
Definition remove_progress (e : env) (w : world) : world * bool :=
  match progress_file w with
  | None => (w, true)
  | Some _ =>
      if remove_fault e then (w, false)
      else (set_progress_file None w, true)
  end.

Definition perform_cleanup (e : env) (w : world) : bool * world :=
  let '(w, ok) := write_archive e w in
  if negb ok then (false, w)
  else
    let '(w, ok) := rmtree e w in
    if negb ok then (false, w)
    else
      let '(w, ok) := remove_progress e w in
      if negb ok then (false, w) else (true, w).

(** ** One pass over a channel: [process_channel] *)

Inductive channel_result :=
| Stopped                          (* [{}] *)
| NoVideosFound                    (* [success: False] *)
| Processed (cleanup_complete : bool).

(** The [for i, video_info in enumerate(remaining_videos)] loop.  The
    boolean tells whether the loop ran to its end; when the stop button
    ended it, the progress has been saved. *)
Fixpoint download_all (e : env) (cfg : config) (i : nat)
  (videos : list video_info) (w : world) (p : progress)
  : bool * world * progress :=
  match videos with
  | [] => (true, w, p)
  | v :: rest =>
      let '(running, w) := read_running e w in
      if negb running then (false, save_progress p w, p)
      else
        let w := check_pause e w in
        let '(_, w, p) :=
          download_single_transcript e cfg (video_id v) (video_title v) w p in
        let w :=
          if ((i + 1) mod 10 =? 0)%nat then save_progress p w else w in
        download_all e cfg (S i) rest w p
  end.

(** Lines 171 to 175: the progress record of the pass. *)
Definition start_progress (url name : string) (w : world) : progress :=
  let id := generate_channel_id url in
  let p := load_progress w in
  Progress (Some url) (Some name) (Some id)
    (completed_videos p) (failed_videos p).

(** Lines 180 to 200: reconciliation and the download loop.  The boolean
    is false when the stop button ended the loop. *)
Definition download_phase (e : env) (cfg : config)
  (video_infos : list video_info) (w : world) (p : progress)
  : bool * world :=
  let existing_ids := get_existing_transcripts (transcript_dir w) in
  let p := reconcile p existing_ids in
  match remaining_videos p video_infos with
  | [] => (true, w)
  | remaining =>
      let '(finished, w, p) := download_all e cfg 0 remaining w p in
      (finished, if finished then save_progress p w else w)
  end.

Definition process_channel (e : env) (cfg : config)
  (url name : string) (video_infos : list video_info) (w : world)
  : channel_result * world :=
  let '(running, w) := read_running e w in
  if negb running then (Stopped, w)
  else
    let w := check_pause e w in
    let p := start_progress url name w in
    match video_infos with
    | [] => (NoVideosFound, w)
    | _ =>
        let '(finished, w) := download_phase e cfg video_infos w p in
        if negb finished then (Stopped, w)
        else
          let '(running, w) := read_running e w in
          if negb running then (Stopped, w)
          else
            let '(_, w) := create_pdfs_from_transcripts cfg name w in
            let '(clean, w) := perform_cleanup e w in
            (Processed clean, w)
    end.

(** How many entries of [failed_videos] name the video [id]. *)
Definition failed_count (id : string) (p : progress) : nat :=
  length (filter (λ entry, failed_id entry = id) (default [] (failed_videos p))).

(** What a document is made of: the three flowables of each file after
    the title of the part. *)
Definition section_of (file : string * string) : list flowable :=
  [PageBreak; FileName (stem file.1); Content (escape (Str.strip file.2))].

Definition render (channel_name : string) (number : nat)
  (files : list (string * string)) : list flowable :=
  Title channel_name number :: concat (section_of <$> files).

(** The documents of the groups [groups], numbered from [number]. *)
Fixpoint numbered (channel_name : string) (number : nat)
  (groups : list (list (string * string))) : list (nat * list flowable) :=
  match groups with
  | [] => []
  | g :: rest =>
      (number, render channel_name number g)
      :: numbered channel_name (S number) rest
  end.

(** [file_word_count] of a file. *)
Definition file_words (file : string * string) : nat :=
  count_words (Str.strip file.2).

Definition group_words (group : list (string * string)) : nat :=
  sum_list_with file_words group.

(** A file of [n] words. *)
Definition words_file (name : string) (n : nat) : string * string :=
  (name, Str.join " " (replicate n "word")).

(** How often the video [id] has been requested from the service. *)
Definition fetch_count (id : string) (w : world) : nat :=
  length (filter (λ x, x = id) (api_calls w)).

(** How many videos of a listing have the id [id]. *)
Definition listed_count (id : string) (videos : list video_info) : nat :=
  length (filter (λ v, video_id v = id) videos).

(** [p] with another [failed_videos] entry list. *)
Definition with_failed (failed : option (list failed_entry)) (p : progress)
  : progress :=
  Progress (channel_url p) (channel_name p) (channel_id p)
    (completed_videos p) failed.

(** ** Sample data *)

(** The engine settings of [DEFAULT_CONFIG]. *)
Definition default_settings : config := Cfg 3 (Seconds 6) 30 490000.

Definition empty_world : world := World None None None [] 0.

(** A run that is never stopped or paused, with a given transcript
    service and no failure of the file system. *)
Definition calm (service : nat → string → fetch_result) : env :=
  Env (λ _, true) (λ _, O) service None None false.

(** ** The run over all channels: [TranscriptProcessor.run] *)

(** The files of all channels: [progress_<id>.json] by channel id, the
    directories [transcripts_<name>_<id>] and [pdf_<name>_<id>] by name
    and id; with them the two counters of [world]. *)
Record disk := Disk {
  progress_files : gmap string progress;
  transcript_dirs : gmap (string * string) (gmap string string);
  pdf_dirs : gmap (string * string) pdf_folder;
  calls : list string;
  reads : nat
}.

(** What [process_channel] sees of the disk for one channel, and the
    disk when it returns. *)
Definition open_channel (name id : string) (d : disk) : world :=
  World (progress_files d !! id) (transcript_dirs d !! (name, id))
        (pdf_dirs d !! (name, id)) (calls d) (reads d).

Definition close_channel (name id : string) (w : world) (d : disk) : disk :=
  Disk (partial_alter (λ _, progress_file w) id (progress_files d))
       (partial_alter (λ _, transcript_dir w) (name, id) (transcript_dirs d))
       (partial_alter (λ _, pdf_dir w) (name, id) (pdf_dirs d))
       (api_calls w) (running_reads w).

(** The counters alone, for the reads of [is_running] that [run] makes
    between two channels. *)
Definition counters (d : disk) : world :=
  World None None None (calls d) (reads d).

Definition with_counters (w : world) (d : disk) : disk :=
  Disk (progress_files d) (transcript_dirs d) (pdf_dirs d)
       (api_calls w) (running_reads w).

(** Lines 118 to 121: [channel_info.get("url")], then
    [extract_channel_name], which calls [rstrip] on the URL, then the
    truth value of [channel_info.get("completed")].  An entry that is no
    dict has no [get]; a URL that is no str has no [rstrip]. *)
Definition channel_of (channel_info : Config.json) : result (string * bool) :=
  match channel_info with
  | Config.JObj fields =>
      match Config.get "url" fields with
      | Some (Config.JStr url) =>
          Ok (url,
              Config.truthy
                (default Config.JNull (Config.get "completed" fields)))
      | _ => Raise AttributeError
      end
  | _ => Raise AttributeError
  end.

(** The loop of [run] over [channels], the list
    [list(self.config['channels'])].  [videos_of i url] is what
    [get_video_ids_from_channel] finds for the [i]-th entry; [done] holds
    the URLs passed to [completion_callback] so far. *)
Fixpoint run_channels (e : env) (cfg : config)
  (videos_of : nat → string → list video_info) (i : nat)
  (channels : list Config.json) (done : list string) (d : disk)
  : result (list string * disk) :=
  match channels with
  | [] => Ok (done, d)
  | channel_info :: rest =>
      let '(running, w) := read_running e (counters d) in
      if negb running then Ok (done, with_counters w d)
      else
        let d := with_counters (check_pause e w) d in
        match channel_of channel_info with
        | Raise x => Raise x
        | Ok (url, completed) =>
            if completed
            then run_channels e cfg videos_of (S i) rest done d
            else
              let name := extract_channel_name url in
              let id := generate_channel_id url in
              let '(r, w) :=
                process_channel e cfg url name (videos_of i url)
                  (open_channel name id d) in
              let d := close_channel name id w d in
              let done :=
                match r with
                | Processed true => done ++ [url]
                | _ => done
                end in
              run_channels e cfg videos_of (S i) rest done d
        end
  end.

Definition run (e : env) (cfg : config)
  (videos_of : nat → string → list video_info)
  (channels : list Config.json) (d : disk) : result (list string * disk) :=
  run_channels e cfg videos_of 0 channels [] d.

(** The URLs of the entries that are not marked completed. *)
Definition uncompleted (channels : list Config.json) : list string :=
  omap (λ c, match channel_of c with
             | Ok (url, false) => Some url
             | _ => None
             end) channels.

(** ** The channel list of the window

    The texts of the list box are held as UTF-8 bytes: on valid UTF-8
    text, prefix test, search and replacement by bytes agree with those by
    code points.  Colours and the selection are left out. *)

Definition COMPLETED_PREFIX : string := "✅ [DONE] ".

(** [s.replace(old, new)] for a non-empty [old]: the occurrences of
    [old] are found from the left and do not overlap. *)
Fixpoint replace_go (old new : string) (skip : nat) (s : string) : string :=
  match s with
  | "" => ""
  | String c r =>
      match skip with
      | S k => replace_go old new k r
      | O =>
          if String.prefix old s
          then new +:+ replace_go old new (String.length old - 1) r
          else String c (replace_go old new 0 r)
      end
  end.

Definition replace (old new s : string) : string := replace_go old new 0 s.

(** Line 464 of [load_config_to_ui]: the text of the list box for a
    channel. *)
Definition display_text (url : string) (is_completed : bool) : string :=
  if is_completed then COMPLETED_PREFIX +:+ url else url.

(** Lines 475 and 476 of [save_config_from_ui]: the URL and the mark
    read back from a text of the list box. *)
Definition channel_of_text (display_text : string) : string * bool :=
  let is_completed := String.prefix COMPLETED_PREFIX display_text in
  let url :=
    if is_completed then replace COMPLETED_PREFIX "" display_text
    else display_text in
  (url, is_completed).

Definition load_channels_to_ui (channels : list (string * bool))
  : list string :=
  (λ c, display_text c.1 c.2) <$> channels.

Definition channels_from_ui (items : list string) : list (string * bool) :=
  channel_of_text <$> items.

(** [mark_channel_as_completed]: the first text that names the channel
    and is not marked is replaced; then the loop ends. *)
Fixpoint mark_channel_as_completed (channel_url : string)
  (items : list string) : list string :=
  match items with
  | [] => []
  | item :: rest =>
      let clean_item := replace COMPLETED_PREFIX "" item in
      if String.eqb clean_item channel_url
         && negb (String.prefix COMPLETED_PREFIX item)
      then (COMPLETED_PREFIX +:+ channel_url) :: rest
      else item :: mark_channel_as_completed channel_url rest
  end.

(** [listbox.insert(i, text)] *)
Definition insert_at (i : nat) (text : string) (items : list string)
  : list string :=
  take i items ++ text :: drop i items.

(** The body of the loop of [move_item].  The indices come from
    [curselection], so they are below the size; outside them the list box
    reads an empty text and deletes nothing. *)
Definition move_one (direction : Z) (items : list string) (i : nat)
  : list string :=
  let j := (Z.of_nat i + direction)%Z in
  if (0 <=? j)%Z && (j <? Z.of_nat (length items))%Z
  then
    let text := default "" (items !! i) in
    insert_at (Z.to_nat j) text (delete i items)
  else items.

Definition move_item (direction : Z) (selected_indices : list nat)
  (items : list string) : list string :=
  let indices :=
    if (direction =? -1)%Z then selected_indices
    else reverse selected_indices in
  foldl (move_one direction) items indices.

(** * Properties *)

#[local] Arguments String.append !_ _ / : simpl nomatch.

(** ** Strings *)

Section StrFacts.
Import Str.

Lemma append_empty_r s : s +:+ "" = s.
Proof. induction s as [|c s IH]; simpl; [done | by rewrite IH]. Qed.

Lemma append_assoc s t u : (s +:+ t) +:+ u = s +:+ (t +:+ u).
Proof. induction s as [|c s IH]; simpl; [done | by rewrite IH]. Qed.

Lemma all_chars_app P s t :
  all_chars P (s +:+ t) = all_chars P s && all_chars P t.
Proof.
  induction s as [|c s IH]; simpl; [done|].
  by rewrite IH, andb_assoc.
Qed.

Lemma all_chars_impl (P Q : ascii → bool) s :
  (∀ c, P c = true → Q c = true) →
  all_chars P s = true → all_chars Q s = true.
Proof.
  intros HPQ. induction s as [|c s IH]; simpl; [done|].
  intros [Hc Hs]%andb_prop. by rewrite (HPQ c Hc), IH.
Qed.

Lemma all_chars_map P f s :
  all_chars P (map_chars f s) = all_chars (λ c, P (f c)) s.
Proof. induction s as [|c s IH]; simpl; [done | by rewrite IH]. Qed.

Lemma all_chars_filter P Q s :
  all_chars P s = true → all_chars P (filter_chars Q s) = true.
Proof.
  induction s as [|c s IH]; simpl; [done|].
  intros [Hc Hs]%andb_prop. destruct (Q c); simpl; rewrite ?Hc; auto.
Qed.

Lemma all_chars_take P n s :
  all_chars P s = true → all_chars P (take n s) = true.
Proof.
  revert s. induction n as [|n IH]; intros [|c s]; simpl; try done.
  intros [Hc Hs]%andb_prop. by rewrite Hc, IH.
Qed.

Lemma length_append s t :
  String.length (s +:+ t) = (String.length s + String.length t)%nat.
Proof. induction s as [|c s IH]; simpl; [done | by rewrite IH]. Qed.

Lemma length_take n s :
  (n ≤ String.length s)%nat → String.length (take n s) = n.
Proof.
  revert s. induction n as [|n IH]; intros [|c s]; simpl; try done; try lia.
  intros H. rewrite IH; lia.
Qed.

Lemma map_chars_app f s t :
  map_chars f (s +:+ t) = map_chars f s +:+ map_chars f t.
Proof. induction s as [|c s IH]; simpl; [done | by rewrite IH]. Qed.

(** Stripping on the left. *)

Lemma lstrip_by_all P s : all_chars P s = true → lstrip_by P s = "".
Proof.
  induction s as [|c s IH]; simpl; [done|].
  intros [Hc Hs]%andb_prop. rewrite Hc. auto.
Qed.

Lemma lstrip_by_app P s t :
  lstrip_by P (s +:+ t) =
  if all_chars P s then lstrip_by P t else lstrip_by P s +:+ t.
Proof.
  induction s as [|c s IH]; simpl; [done|].
  destruct (P c); simpl; [apply IH | done].
Qed.

Lemma lstrip_by_map P f s :
  (∀ c, P (f c) = P c) →
  lstrip_by P (map_chars f s) = map_chars f (lstrip_by P s).
Proof.
  intros Hf. induction s as [|c s IH]; simpl; [done|].
  rewrite Hf. by destruct (P c).
Qed.

(** Stripping on the right. *)

Lemma rstrip_by_all P s : all_chars P s = true → rstrip_by P s = "".
Proof.
  induction s as [|c s IH]; simpl; [done|].
  intros [Hc Hs]%andb_prop. by rewrite (IH Hs), Hc.
Qed.

Lemma rstrip_by_empty_inv P s : rstrip_by P s = "" → all_chars P s = true.
Proof.
  induction s as [|c s IH]; simpl; [done|].
  destruct (rstrip_by P s) eqn:E; [|done].
  destruct (P c); [auto | done].
Qed.

Lemma rstrip_by_app P s t :
  rstrip_by P (s +:+ t) =
  if all_chars P t then rstrip_by P s else s +:+ rstrip_by P t.
Proof.
  induction s as [|c s IH]; simpl.
  - destruct (all_chars P t) eqn:E; [by apply rstrip_by_all | done].
  - rewrite IH. destruct (all_chars P t) eqn:E; [done|].
    destruct (s +:+ rstrip_by P t) eqn:E'; [|done].
    destruct s; [|done]. simpl in E'.
    apply rstrip_by_empty_inv in E'. congruence.
Qed.

Lemma rstrip_by_idemp P s : rstrip_by P (rstrip_by P s) = rstrip_by P s.
Proof.
  induction s as [|c s IH]; simpl; [done|].
  destruct (rstrip_by P s) as [|d r] eqn:E.
  - destruct (P c) eqn:Ec; simpl; by rewrite ?Ec.
  - simpl. simpl in IH. destruct (rstrip_by P r) eqn:Er.
    + destruct (P d); [done|]. by injection IH as <-.
    + by rewrite IH.
Qed.

Lemma rstrip_by_map P f s :
  (∀ c, P (f c) = P c) →
  rstrip_by P (map_chars f s) = map_chars f (rstrip_by P s).
Proof.
  intros Hf. induction s as [|c s IH]; simpl; [done|].
  rewrite IH, Hf. destruct (rstrip_by P s); simpl; [|done].
  by destruct (P c).
Qed.

Lemma rstrip_by_ascii P s :
  ascii_text s = true → ascii_text (rstrip_by P s) = true.
Proof.
  unfold ascii_text. induction s as [|c s IH]; simpl; [done|].
  intros [Hc Hs]%andb_prop. specialize (IH Hs).
  destruct (rstrip_by P s); simpl.
  - destruct (P c); simpl; by rewrite ?Hc.
  - simpl in IH. by rewrite Hc, IH.
Qed.

Lemma isspace_lower_char c : isspace (lower_char c) = isspace c.
Proof. by destruct c as [[] [] [] [] [] [] [] []]. Qed.

Lemma slash_lower_char c :
  Ascii.eqb "/" (lower_char c) = Ascii.eqb "/" c.
Proof. by destruct c as [[] [] [] [] [] [] [] []]. Qed.

Lemma lower_char_idemp c : lower_char (lower_char c) = lower_char c.
Proof. by destruct c as [[] [] [] [] [] [] [] []]. Qed.

Lemma lower_idemp s : lower (lower s) = lower s.
Proof.
  unfold lower. induction s as [|c s IH]; simpl; [done|].
  by rewrite lower_char_idemp, IH.
Qed.

Lemma strip_lower s : strip (lower s) = lower (strip s).
Proof.
  unfold strip, lower.
  rewrite lstrip_by_map by apply isspace_lower_char.
  by rewrite rstrip_by_map by apply isspace_lower_char.
Qed.

Lemma rstrip_slash_lower s :
  rstrip_slash (lower s) = lower (rstrip_slash s).
Proof.
  unfold rstrip_slash, lower.
  by rewrite rstrip_by_map by apply slash_lower_char.
Qed.

(** Whitespace around a string does not survive [strip]. *)
Lemma strip_padding w1 w2 s :
  all_chars isspace w1 = true → all_chars isspace w2 = true →
  strip (w1 +:+ s +:+ w2) = strip s.
Proof.
  intros H1 H2. unfold strip.
  rewrite lstrip_by_app, H1, lstrip_by_app.
  destruct (all_chars isspace s) eqn:Es.
  - by rewrite (lstrip_by_all _ w2), (lstrip_by_all _ s).
  - by rewrite rstrip_by_app, H2.
Qed.

Lemma replace_char_same c s : replace_char c (String c "") s = s.
Proof.
  induction s as [|a s IH]; simpl; [done|].
  destruct (Ascii.eqb a c) eqn:E; simpl; rewrite IH; [|done].
  by apply Ascii.eqb_eq in E as ->.
Qed.

End StrFacts.

(** ** The channel id *)

Section ChannelId.
Import Str.

Lemma rstrip_by_none P s : any_char P s = false → rstrip_by P s = s.
Proof.
  induction s as [|c s IH]; simpl; [done|].
  intros [Hc Hs]%orb_false_elim. rewrite (IH Hs), Hc. by destruct s.
Qed.

Lemma lstrip_by_split P s :
  ∃ w, all_chars P w = true ∧ s = w +:+ lstrip_by P s.
Proof.
  induction s as [|c s (w & Hw & IH)]; simpl.
  - by exists "".
  - destruct (P c) eqn:Hc.
    + exists (String c w). simpl. rewrite Hc, Hw. split; [done|]. by f_equal.
    + by exists "".
Qed.

(** Without whitespace at its end, a string keeps none once the
    whitespace at its start is removed. *)
Lemma lstrip_by_keeps_right P s :
  rstrip_by P s = s → rstrip_by P (lstrip_by P s) = lstrip_by P s.
Proof.
  intros Hs. destruct (lstrip_by_split P s) as (w & Hw & Hsplit).
  rewrite Hsplit, rstrip_by_app in Hs at 1.
  destruct (all_chars P (lstrip_by P s)) eqn:Ht.
  - rewrite (rstrip_by_all _ w Hw) in Hs.
    assert (lstrip_by P s = "") as -> by (rewrite <- Hs; done). done.
  - rewrite Hsplit in Hs at 2. by apply (inj (String.append w)) in Hs.
Qed.

Lemma lstrip_by_idemp P s : lstrip_by P (lstrip_by P s) = lstrip_by P s.
Proof.
  induction s as [|c s IH]; simpl; [done|].
  destruct (P c) eqn:Hc; [done|]. simpl. by rewrite Hc.
Qed.

(** Stripping on the right leaves the start of a string alone. *)
Lemma rstrip_by_keeps_left P Q s :
  lstrip_by P s = s → lstrip_by P (rstrip_by Q s) = rstrip_by Q s.
Proof.
  destruct s as [|c s]; simpl; [done|].
  destruct (P c) eqn:Hc.
  - intros Hs. exfalso.
    destruct (lstrip_by_split P s) as (w & _ & Hsplit).
    apply (f_equal String.length) in Hs. apply (f_equal String.length) in Hsplit.
    rewrite length_append in Hsplit. simpl in Hs. lia.
  - intros _. destruct (rstrip_by Q s); simpl; [|by rewrite Hc].
    destruct (Q c); simpl; by rewrite ?Hc.
Qed.

Lemma normalize_url_padding w1 w2 url :
  all_chars isspace w1 = true → all_chars isspace w2 = true →
  normalize_url (w1 +:+ url +:+ w2) = normalize_url url.
Proof. intros H1 H2. unfold normalize_url. by rewrite strip_padding. Qed.

Lemma normalize_url_case url url' :
  lower url' = lower url → normalize_url url' = normalize_url url.
Proof. intros H. unfold normalize_url. by rewrite <- !strip_lower, H. Qed.

Lemma normalize_url_slashes url slashes :
  rstrip_by isspace url = url →
  all_chars (Ascii.eqb "/") slashes = true →
  normalize_url (url +:+ slashes) = normalize_url url.
Proof.
  intros Hright Hsl. unfold normalize_url.
  assert (any_char isspace slashes = false) as Hnosp.
  { clear -Hsl. induction slashes as [|c s IH];
      cbn [all_chars any_char] in *; [done|].
    apply andb_prop in Hsl as [Hc Hs]. rewrite (IH Hs).
    by apply Ascii.eqb_eq in Hc as <-. }
  assert (lower slashes = slashes) as Hlow.
  { clear -Hsl. unfold lower.
    induction slashes as [|c s IH];
      cbn [all_chars map_chars] in *; [done|].
    apply andb_prop in Hsl as [Hc Hs]. rewrite (IH Hs).
    by apply Ascii.eqb_eq in Hc as <-. }
  assert (strip (url +:+ slashes) = strip url +:+ slashes) as ->.
  { unfold strip. rewrite lstrip_by_app.
    destruct (all_chars isspace url) eqn:Hall.
    - rewrite (rstrip_by_all _ _ Hall) in Hright. subst url. simpl.
      destruct slashes as [|c s]; [done|].
      cbn [any_char] in Hnosp. cbn [String.append lstrip_by].
      apply orb_false_elim in Hnosp as [Hc Hs]. rewrite Hc.
      apply rstrip_by_none. cbn [any_char]. by rewrite Hc, Hs.
    - rewrite rstrip_by_app. destruct (all_chars isspace slashes) eqn:Hsp.
      + destruct slashes as [|c s]; [by rewrite !append_empty_r|].
        cbn [all_chars any_char] in *.
        apply orb_false_elim in Hnosp as [Hc _]. by rewrite Hc in Hsp.
      + by rewrite (rstrip_by_none _ _ Hnosp), lstrip_by_keeps_right. }
  unfold rstrip_slash, lower. rewrite map_chars_app.
  fold (lower slashes). rewrite Hlow. by rewrite rstrip_by_app, Hsl.
Qed.

Lemma normalize_url_stable url :
  rstrip_by isspace (normalize_url url) = normalize_url url →
  normalize_url (normalize_url url) = normalize_url url.
Proof.
  intros Hright. unfold normalize_url at 1.
  assert (strip (normalize_url url) = normalize_url url) as ->.
  { unfold strip.
    assert (lstrip_by isspace (normalize_url url) = normalize_url url) as ->;
      [|done].
    unfold normalize_url, rstrip_slash. apply rstrip_by_keeps_left.
    rewrite <- strip_lower. unfold strip. apply rstrip_by_keeps_left.
    apply lstrip_by_idemp. }
  unfold normalize_url. rewrite <- rstrip_slash_lower, lower_idemp.
  apply rstrip_by_idemp.
Qed.

(** The digest has the shape of [hexdigest]: 32 digits. *)

Lemma hex_digit_is_hex n : is_hex (MD5.hex_digit n) = true.
Proof.
  unfold MD5.hex_digit. destruct (n mod 16)%Z as [|p|p]; try done.
  do 5 (try (destruct p as [p|p|]; try done)).
Qed.

Lemma hex_word_shape x :
  String.length (MD5.hex_word x) = 8%nat
  ∧ all_chars is_hex (MD5.hex_word x) = true.
Proof.
  unfold MD5.hex_word, MD5.hex_byte. simpl.
  rewrite !hex_digit_is_hex. done.
Qed.

Lemma hexdigest_shape msg :
  String.length (MD5.hexdigest msg) = 32%nat
  ∧ all_chars is_hex (MD5.hexdigest msg) = true.
Proof.
  unfold MD5.hexdigest. destruct (MD5.digest_state msg) as [a b c d].
  rewrite !length_append, !all_chars_app.
  destruct (hex_word_shape a) as [-> ->], (hex_word_shape b) as [-> ->],
    (hex_word_shape c) as [-> ->], (hex_word_shape d) as [-> ->].
  done.
Qed.

Lemma generate_channel_id_shape url :
  String.length (generate_channel_id url) = 12%nat
  ∧ all_chars is_hex (generate_channel_id url) = true.
Proof.
  unfold generate_channel_id.
  destruct (hexdigest_shape (MD5.encode (normalize_url url))) as [Hlen Hhex].
  split; [apply length_take; lia | by apply all_chars_take].
Qed.

(** C5, as stated, fails: a URL with whitespace before its trailing
    slash does not share the id of its normalized form, and a slash added
    after trailing whitespace changes the id. *)
Lemma channel_id_normalized_differs :
  generate_channel_id "https://x/@a /"
    ≠ generate_channel_id (normalize_url "https://x/@a /")
  ∧ generate_channel_id ("https://x/@a " +:+ "/")
    ≠ generate_channel_id "https://x/@a ".
Proof. split; vm_compute; discriminate. Qed.

(** C5, amended.  For every (ASCII) channel URL, [generate_channel_id]
    returns exactly 12 hexadecimal digits; the id does not change when
    whitespace is put around the URL, when the case of letters changes,
    or when slashes are appended to a URL that does not end in
    whitespace; the normalized (trimmed, lowercased, slash-stripped) URL
    has the id of the URL whenever that normalized URL does not end in
    whitespace; and the ids of [https://x/@a/] and [HTTPS://X/@A] are
    equal. *)
Theorem channel_id_invariance (url : string) :
  ascii_text url = true →
  (String.length (generate_channel_id url) = 12%nat
   ∧ all_chars is_hex (generate_channel_id url) = true)
  ∧ (∀ w1 w2,
       all_chars isspace w1 = true → all_chars isspace w2 = true →
       generate_channel_id (w1 +:+ url +:+ w2) = generate_channel_id url)
  ∧ (∀ url',
       lower url' = lower url →
       generate_channel_id url' = generate_channel_id url)
  ∧ (∀ slashes,
       rstrip_by isspace url = url →
       all_chars (Ascii.eqb "/") slashes = true →
       generate_channel_id (url +:+ slashes) = generate_channel_id url)
  ∧ (rstrip_by isspace (normalize_url url) = normalize_url url →
     generate_channel_id (normalize_url url) = generate_channel_id url)
  ∧ generate_channel_id "https://x/@a/" = generate_channel_id "HTTPS://X/@A".
Proof.
  intros _. split; [apply generate_channel_id_shape|].
  unfold generate_channel_id. repeat split.
  - intros w1 w2 H1 H2. by rewrite normalize_url_padding.
  - intros url' H. by rewrite (normalize_url_case url url').
  - intros slashes H1 H2. by rewrite normalize_url_slashes.
  - intros H. by rewrite normalize_url_stable.
Qed.

Lemma channel_id_invariance_witness :
  generate_channel_id ("  " +:+ "https://X/@a" +:+ newline)
    = generate_channel_id "https://X/@a"
  ∧ generate_channel_id "HTTPS://x/@A" = generate_channel_id "https://X/@a"
  ∧ generate_channel_id ("https://X/@a" +:+ "//")
    = generate_channel_id "https://X/@a"
  ∧ generate_channel_id (normalize_url "https://X/@a")
    = generate_channel_id "https://X/@a".
Proof.
  destruct (channel_id_invariance "https://X/@a" eq_refl)
    as (_ & Hpad & Hcase & Hslash & Hnorm & _).
  split; [apply Hpad; reflexivity|].
  split; [apply Hcase; reflexivity|].
  split; [apply Hslash; reflexivity|].
  apply Hnorm; reflexivity.
Defined.

End ChannelId.

(** ** The body text of a PDF section *)

Lemma escape_id content : escape content = content.
Proof. unfold escape. by rewrite !replace_char_same. Qed.

(** C8 (defect of the code).  Both [replace] calls of line 325 replace a
    character by itself: the body text of a section always is the stripped
    file content, unchanged, also when it contains an ampersand or a
    less-than sign. *)
Theorem escape_changes_nothing :
  (∀ content, escape content = content)
  ∧ (∀ cfg channel_name st name content,
       ∃ before,
         story (add_file cfg channel_name st (name, content))
         = before ++ [PageBreak; FileName (stem name);
                      Content (Str.strip content)])
  ∧ escape "Q&A: 1 < 2" = "Q&A: 1 < 2".
Proof.
  split; [apply escape_id|]. split; [|done].
  intros cfg channel_name st name content. unfold add_file. simpl.
  rewrite escape_id. eauto.
Qed.

(** ** The download engine *)

(** Waiting touches nothing but the count of reads of [is_running]. *)
Definition same_data (w w' : world) : Prop :=
  progress_file w' = progress_file w
  ∧ transcript_dir w' = transcript_dir w
  ∧ pdf_dir w' = pdf_dir w
  ∧ api_calls w' = api_calls w.

Lemma same_data_refl w : same_data w w.
Proof. by repeat split. Qed.

Lemma same_data_trans w1 w2 w3 :
  same_data w1 w2 → same_data w2 w3 → same_data w1 w3.
Proof.
  intros (? & ? & ? & ?) (? & ? & ? & ?). repeat split; congruence.
Qed.

Lemma check_pause_same_data e w : same_data w (check_pause e w).
Proof. by repeat split. Qed.

Lemma read_running_same_data e w : same_data w (read_running e w).2.
Proof. by repeat split. Qed.

Lemma countdown_same_data e n w : same_data w (countdown e n w).
Proof.
  revert w. induction n as [|n IH]; intros w; simpl;
    [apply same_data_refl|].
  destruct (is_running e (running_reads w)).
  - eapply same_data_trans; [|apply IH]. by repeat split.
  - by repeat split.
Qed.

Lemma wait_with_countdown_same_data e seconds w :
  same_data w (wait_with_countdown e seconds w).
Proof. apply countdown_same_data. Qed.

(** The loop needs no more fuel than the retries that are left. *)
Lemma attempts_fuel e cfg id title fuel fuel' retries w p :
  (Z.to_nat (max_retries cfg - retries) ≤ fuel)%nat →
  (Z.to_nat (max_retries cfg - retries) ≤ fuel')%nat →
  attempts e cfg id title fuel retries w p
  = attempts e cfg id title fuel' retries w p.
Proof.
  revert fuel' retries w.
  induction fuel as [|fuel IH]; intros fuel' retries w H1 H2.
  - destruct fuel' as [|fuel']; simpl; [done|].
    destruct (Z.ltb_spec retries (max_retries cfg)); [lia | done].
  - destruct fuel' as [|fuel']; simpl;
      destruct (Z.ltb_spec retries (max_retries cfg)); try done; try lia.
    destruct (is_running e _); simpl; [|done].
    assert (∀ w', attempts e cfg id title fuel (retries + 1) w' p
                  = attempts e cfg id title fuel' (retries + 1) w' p) as Hrec
      by (intros w'; apply IH; lia).
    destruct (delay_raises _); [apply Hrec|].
    destruct (get_transcript e _ id); done.
Qed.

(** A fetch that always raises an ordinary exception: every iteration
    of the loop calls the service once and changes nothing else. *)
Lemma attempts_all_fail e cfg id title p fuel :
  (∀ n, ∃ message, get_transcript e n id = OtherError message) →
  (∀ k, is_running e k = true) →
  delay_raises (delay_between_requests cfg) = false →
  ∀ retries w,
    let r := attempts e cfg id title fuel retries w p in
    r.1.1 = false ∧ r.2 = p
    ∧ progress_file r.1.2 = progress_file w
    ∧ transcript_dir r.1.2 = transcript_dir w
    ∧ api_calls r.1.2
      = api_calls w
        ++ replicate (fuel `min` Z.to_nat (max_retries cfg - retries)) id.
Proof.
  intros Hfetch Hrun Hdelay.
  induction fuel as [|fuel IH]; intros retries w; simpl.
  { by rewrite app_nil_r. }
  destruct (Z.ltb_spec retries (max_retries cfg)) as [Hlt|Hge]; simpl.
  - rewrite Hrun, Hdelay. simpl.
    destruct (Hfetch (length (api_calls w))) as [message ->].
    match goal with
    | |- context [attempts e cfg id title fuel (retries + 1) ?w' p] =>
        specialize (IH (retries + 1)%Z w');
        assert (progress_file w' = progress_file w
                ∧ transcript_dir w' = transcript_dir w
                ∧ api_calls w' = api_calls w ++ [id]) as (Hp & Ht & Ha)
    end.
    { destruct (retries + 1 <? max_retries cfg)%Z; [|done].
      match goal with
      | |- context [wait_with_countdown e ?s ?w0] =>
          destruct (wait_with_countdown_same_data e s w0)
            as (H1 & H2 & _ & H4)
      end.
      by rewrite H1, H2, H4. }
    simpl in IH. destruct IH as (-> & -> & -> & -> & ->).
    rewrite Hp, Ht, Ha, <- app_assoc. repeat split. simpl. do 2 f_equal.
    replace (Z.to_nat (max_retries cfg - retries))
      with (S (Z.to_nat (max_retries cfg - (retries + 1)))) by lia.
    done.
  - replace (Z.to_nat (max_retries cfg - retries)) with O by lia.
    simpl. by rewrite app_nil_r.
Qed.

(** C3.  While the run is not stopped and the delay setting is usable: a
    video whose fetch always raises an ordinary exception is fetched
    exactly [max_retries] times, the result is [False] and the progress
    record, the progress file and the transcript directory are left as they
    were; a video whose first fetch raises [TranscriptsDisabled] or
    [NoTranscriptFound] is fetched exactly once, the result is [True], one
    entry with its id and the reason is appended to [failed_videos] and
    [completed_videos] is unchanged. *)
Theorem retry_policy e cfg id title w p :
  (∀ k, is_running e k = true) →
  delay_raises (delay_between_requests cfg) = false →
  (0 ≤ max_retries cfg)%Z →
  let r := download_single_transcript e cfg id title w p in
  ((∀ n, ∃ message, get_transcript e n id = OtherError message) →
   r.1.1 = false
   ∧ r.2 = p
   ∧ api_calls r.1.2 = api_calls w ++ replicate (Z.to_nat (max_retries cfg)) id
   ∧ (Z.of_nat (length (api_calls r.1.2))
      = Z.of_nat (length (api_calls w)) + max_retries cfg)%Z
   ∧ progress_file r.1.2 = progress_file w
   ∧ transcript_dir r.1.2 = transcript_dir w)
  ∧ (∀ reason,
       (0 < max_retries cfg)%Z →
       get_transcript e (length (api_calls w)) id = Unavailable reason →
       r.1.1 = true
       ∧ api_calls r.1.2 = api_calls w ++ [id]
       ∧ failed_videos r.2
         = Some (default [] (failed_videos p) ++ [FailedEntry id reason])
       ∧ completed_videos r.2 = completed_videos p
       ∧ progress_file r.1.2 = progress_file w
       ∧ transcript_dir r.1.2 = transcript_dir w).
Proof.
  intros Hrun Hdelay Hmax r. subst r. unfold download_single_transcript.
  split.
  - intros Hfetch.
    destruct (attempts_all_fail e cfg id title p (Z.to_nat (max_retries cfg))
                Hfetch Hrun Hdelay 0%Z w) as (H1 & H2 & H3 & H4 & H5).
    rewrite Z.sub_0_r, Nat.min_id in H5.
    repeat split; try done.
    rewrite H5, length_app, length_replicate. lia.
  - intros reason Hpos Hfetch.
    destruct (Z.to_nat (max_retries cfg)) as [|fuel] eqn:Hfuel; [lia|].
    simpl. destruct (Z.ltb_spec 0 (max_retries cfg)); [|lia].
    rewrite Hrun, Hdelay. simpl. rewrite Hfetch. done.
Qed.

Lemma retry_policy_witness :
  let failing := calm (λ _ _, OtherError "HTTP Error 503") in
  let disabled := calm (λ _ _, Unavailable "Subtitles are disabled") in
  let r1 := download_single_transcript failing default_settings
              "dQw4w9WgXcQ" "A title" empty_world empty_progress in
  let r2 := download_single_transcript disabled default_settings
              "dQw4w9WgXcQ" "A title" empty_world empty_progress in
  (r1.1.1 = false ∧ r1.2 = empty_progress
   ∧ api_calls r1.1.2 = ["dQw4w9WgXcQ"; "dQw4w9WgXcQ"; "dQw4w9WgXcQ"])
  ∧ (r2.1.1 = true ∧ api_calls r2.1.2 = ["dQw4w9WgXcQ"]
     ∧ failed_videos r2.2
       = Some [FailedEntry "dQw4w9WgXcQ" "Subtitles are disabled"]
     ∧ completed_videos r2.2 = None).
Proof.
  intros failing disabled r1 r2. split.
  - destruct (retry_policy failing default_settings "dQw4w9WgXcQ" "A title"
                empty_world empty_progress (λ _, eq_refl) eq_refl)
      as [Hfail _]; [simpl; lia|].
    destruct Hfail as (H1 & H2 & H3 & _).
    { intros n. by exists "HTTP Error 503". }
    exact (conj H1 (conj H2 H3)).
  - destruct (retry_policy disabled default_settings "dQw4w9WgXcQ" "A title"
                empty_world empty_progress (λ _, eq_refl) eq_refl)
      as [_ Hskip]; [simpl; lia|].
    destruct (Hskip "Subtitles are disabled") as (H1 & H2 & H3 & H4 & _);
      [simpl; lia | reflexivity |].
    exact (conj H1 (conj H2 (conj H3 H4))).
Defined.

(** ** The directory scan *)

Section Scan.
Import Str.

Lemma take_drop n s : take n s +:+ drop n s = s.
Proof.
  revert s. induction n as [|n IH]; intros [|c s]; simpl; try done.
  by rewrite IH.
Qed.

Lemma take_app_length s t : take (String.length s) (s +:+ t) = s.
Proof. induction s as [|c s IH]; simpl; [by destruct t | by rewrite IH]. Qed.

Lemma drop_app_length s t : drop (String.length s) (s +:+ t) = t.
Proof. induction s as [|c s IH]; simpl; [by destruct t | done]. Qed.

Lemma append_inj_length s t a b :
  String.length a = String.length b →
  s +:+ a = t +:+ b → s = t ∧ a = b.
Proof.
  intros Hlen. revert t. induction s as [|c s IH]; intros [|d t]; simpl.
  - done.
  - intros ->. simpl in Hlen. rewrite length_append in Hlen. lia.
  - intros <-. simpl in Hlen. rewrite length_append in Hlen. lia.
  - intros [= -> H]. by destruct (IH _ H) as [-> ->].
Qed.

Lemma last_char_cons a t : is_Some (last_char (String a t)).
Proof.
  revert a. induction t as [|b t IH]; intros a; simpl; [by eexists|].
  apply (IH b).
Qed.

Lemma last_char_String c s :
  last_char (String c s)
  = match last_char s with Some d => Some d | None => Some c end.
Proof.
  destruct s as [|a s]; [done|].
  change (last_char (String c (String a s))) with (last_char (String a s)).
  by destruct (last_char_cons a s) as [x ->].
Qed.

Lemma last_char_app s t :
  last_char (s +:+ t)
  = match last_char t with Some c => Some c | None => last_char s end.
Proof.
  destruct t as [|a t]; [by rewrite append_empty_r|].
  destruct (last_char_cons a t) as [x Hx]. rewrite Hx.
  induction s as [|c s IH]; simpl; [done|]. rewrite IH. by destruct s.
Qed.

Lemma match_here_spec f g :
  match_here f = Some g →
  ∃ tail, f = "(" +:+ g +:+ tail
          ∧ (tail = ").txt" ∨ tail = ").txt" +:+ newline)
          ∧ String.length g = 11%nat
          ∧ all_chars is_word g = true.
Proof.
  destruct f as [|c r]; [done|]. unfold match_here.
  destruct (_ && _) eqn:E; [|done]. intros Hg.
  assert (g = take 11 r) as -> by congruence. clear Hg.
  apply andb_prop in E as [E Htail]. apply andb_prop in E as [E Hword].
  apply andb_prop in E as [Hc Hlen].
  apply Ascii.eqb_eq in Hc as ->. apply Nat.eqb_eq in Hlen.
  exists (drop 11 r). rewrite take_drop. repeat split; try done.
  apply orb_prop in Htail as [H|H]; apply String.eqb_eq in H; auto.
Qed.

Lemma match_here_exact g :
  String.length g = 11%nat → all_chars is_word g = true →
  match_here ("(" +:+ g +:+ ").txt") = Some g.
Proof.
  intros Hlen Hword.
  pose proof (take_app_length g ").txt") as Htake.
  pose proof (drop_app_length g ").txt") as Hdrop.
  rewrite Hlen in Htake, Hdrop.
  unfold match_here. cbn [String.append].
  by rewrite Htake, Hdrop, Hlen, Hword.
Qed.

Lemma search_id_spec f g :
  search_id f = Some g →
  ∃ pre tail, f = pre +:+ "(" +:+ g +:+ tail
              ∧ (tail = ").txt" ∨ tail = ").txt" +:+ newline)
              ∧ String.length g = 11%nat
              ∧ all_chars is_word g = true.
Proof.
  induction f as [|c f IH]; [done|]. cbn [search_id].
  destruct (match_here (String c f)) as [g'|] eqn:E.
  - intros [= ->]. apply match_here_spec in E as (tail & H1 & H2 & H3 & H4).
    by exists "", tail.
  - intros (pre & tail & -> & H)%IH. by exists (String c pre), tail.
Qed.

(** A name that ends in [.txt] is matched exactly when the eleven
    characters in parentheses before the ending are word characters. *)
Lemma search_id_txt stem g :
  search_id (stem +:+ ".txt") = Some g →
  ∃ pre, stem +:+ ".txt" = pre +:+ "(" +:+ g +:+ ").txt"
         ∧ String.length g = 11%nat
         ∧ all_chars is_word g = true.
Proof.
  intros (pre & tail & Heq & [->| ->] & Hlen & Hword)%search_id_spec.
  - by exists pre.
  - exfalso. apply (f_equal last_char) in Heq.
    by rewrite !last_char_app in Heq.
Qed.

Lemma search_id_complete pre g :
  String.length g = 11%nat → all_chars is_word g = true →
  search_id (pre +:+ "(" +:+ g +:+ ").txt") = Some g.
Proof.
  intros Hlen Hword. induction pre as [|c pre IH].
  - cbn [String.append search_id].
    change (String "(" (g +:+ ").txt")) with ("(" +:+ g +:+ ").txt").
    by rewrite match_here_exact.
  - cbn [String.append search_id].
    destruct (match_here _) as [g'|] eqn:E; [exfalso|apply IH].
    apply match_here_spec in E as (tail & Heq & Htail & Hlen' & _).
    cbn [String.append] in Heq. injection Heq as -> Heq.
    destruct Htail as [->| ->].
    + apply (f_equal String.length) in Heq.
      rewrite !length_append in Heq. cbn [String.length] in Heq.
      rewrite !length_append in Heq. simpl in Heq. lia.
    + apply (f_equal last_char) in Heq.
      rewrite !last_char_app, last_char_String, last_char_app in Heq.
      done.
Qed.

Lemma elem_of_existing_transcripts id dir :
  id ∈ get_existing_transcripts dir ↔
  ∃ files name, dir = Some files ∧ is_Some (files !! name)
                ∧ search_id name = Some id.
Proof.
  destruct dir as [files|]; simpl.
  - rewrite elem_of_set_omap. split.
    + intros (name & Hname%elem_of_dom & Hid). eauto.
    + intros (? & name & [= <-] & Hname%elem_of_dom & Hid). eauto.
  - split; [set_solver|]. by intros (? & ? & ? & _).
Qed.

(** The scan only ever reports ids made of eleven word characters. *)
Lemma existing_transcripts_word id dir :
  id ∈ get_existing_transcripts dir →
  String.length id = 11%nat ∧ all_chars is_word id = true.
Proof.
  intros (files & name & _ & _ & Hid)%elem_of_existing_transcripts.
  by apply search_id_spec in Hid as (? & ? & ? & ? & ? & ?).
Qed.

Lemma hyphen_not_word id :
  any_char (Ascii.eqb "-") id = true → all_chars is_word id = false.
Proof.
  induction id as [|c id IH]; cbn [any_char all_chars]; [done|].
  intros [Hc|Hid]%orb_prop.
  - by apply Ascii.eqb_eq in Hc as <-.
  - rewrite (IH Hid). apply andb_false_r.
Qed.

(** Line 181 and 182: what is left to download. *)
Lemma elem_of_reconciled id p existing :
  id ∈ default [] (completed_videos (reconcile p existing)) ↔
  id ∈ default [] (completed_videos p) ∨ id ∈ existing.
Proof.
  simpl. by rewrite elem_of_elements, elem_of_union, elem_of_list_to_set.
Qed.

Lemma elem_of_remaining_videos v p existing videos :
  v ∈ remaining_videos (reconcile p existing) videos ↔
  v ∈ videos
  ∧ (video_id v ∉ default [] (completed_videos p))
  ∧ (video_id v ∉ existing).
Proof.
  unfold remaining_videos. rewrite list_elem_of_filter, elem_of_reconciled.
  tauto.
Qed.

End Scan.

(** ** The download phase of a pass *)

(** What one call of the engine can do to the progress record. *)
Inductive recorded (id : string) (p : progress) : progress → Prop :=
| recorded_nothing : recorded id p p
| recorded_completed : recorded id p (add_completed id p)
| recorded_failed reason : recorded id p (add_failed id reason p).

Lemma attempts_effect e cfg id title fuel retries w p :
  let r := attempts e cfg id title fuel retries w p in
  recorded id p r.2
  ∧ (∃ k, api_calls r.1.2 = api_calls w ++ replicate k id)
  ∧ progress_file r.1.2 = progress_file w
  ∧ pdf_dir r.1.2 = pdf_dir w.
Proof.
  revert retries w. induction fuel as [|fuel IH]; intros retries w; simpl.
  { repeat split; [constructor|]. exists O. by rewrite app_nil_r. }
  destruct (retries <? max_retries cfg)%Z; simpl;
    [|repeat split; [constructor|]; exists O; by rewrite app_nil_r].
  destruct (is_running e _); simpl;
    [|repeat split; [constructor|]; exists O; by rewrite app_nil_r].
  assert (∀ w0 calls,
            progress_file w0 = progress_file w → pdf_dir w0 = pdf_dir w →
            api_calls w0 = api_calls w ++ calls →
            (∃ k, calls = replicate k id) →
            let w1 := if (retries + 1 <? max_retries cfg)%Z
                      then wait_with_countdown e (retry_delay cfg) w0
                      else w0 in
            let r := attempts e cfg id title fuel (retries + 1) w1 p in
            recorded id p r.2
            ∧ (∃ k, api_calls r.1.2 = api_calls w ++ replicate k id)
            ∧ progress_file r.1.2 = progress_file w
            ∧ pdf_dir r.1.2 = pdf_dir w) as Hretry.
  { intros w0 calls Hp Hd Ha [k ->] w1.
    assert (same_data w0 w1) as (Hp1 & _ & Hd1 & Ha1).
    { subst w1. destruct (_ <? _)%Z;
        [apply wait_with_countdown_same_data | apply same_data_refl]. }
    destruct (IH (retries + 1)%Z w1) as (Hrec & [k' Hcalls] & Hp' & Hd').
    repeat split; [done| |congruence|congruence].
    exists (k + k')%nat.
    by rewrite Hcalls, Ha1, Ha, <- app_assoc, replicate_add. }
  destruct (delay_raises _).
  { apply (Hretry _ []); [done..|by rewrite app_nil_r|by exists O]. }
  destruct (get_transcript e _ id) as [lines|reason|message]; simpl.
  - repeat split; [constructor|by exists 1%nat].
  - repeat split; [constructor|by exists 1%nat].
  - apply (Hretry _ [id]); [done..|by exists 1%nat].
Qed.

Lemma download_single_effect e cfg id title w p :
  let r := download_single_transcript e cfg id title w p in
  recorded id p r.2
  ∧ (∃ k, api_calls r.1.2 = api_calls w ++ replicate k id)
  ∧ progress_file r.1.2 = progress_file w
  ∧ pdf_dir r.1.2 = pdf_dir w.
Proof. apply attempts_effect. Qed.

(** The engine on a video without transcript, in a run that is not
    stopped. *)
Lemma download_single_unavailable e cfg id title w p reason :
  (∀ k, is_running e k = true) →
  delay_raises (delay_between_requests cfg) = false →
  (0 < max_retries cfg)%Z →
  get_transcript e (length (api_calls w)) id = Unavailable reason →
  let r := download_single_transcript e cfg id title w p in
  r.1.1 = true
  ∧ r.2 = add_failed id reason p
  ∧ api_calls r.1.2 = api_calls w ++ [id]
  ∧ progress_file r.1.2 = progress_file w
  ∧ transcript_dir r.1.2 = transcript_dir w.
Proof.
  intros Hrun Hdelay Hpos Hfetch. unfold download_single_transcript.
  destruct (Z.to_nat (max_retries cfg)) as [|fuel] eqn:Hfuel; [lia|].
  simpl. destruct (Z.ltb_spec 0 (max_retries cfg)); [|lia].
  rewrite Hrun, Hdelay. simpl. by rewrite Hfetch.
Qed.

(** Only listed videos are fetched by the loop. *)
Lemma download_all_calls e cfg videos i w p :
  let r := download_all e cfg i videos w p in
  ∃ fetched, api_calls r.1.2 = api_calls w ++ fetched
             ∧ (∀ id, id ∈ fetched → id ∈ video_id <$> videos)
             ∧ pdf_dir r.1.2 = pdf_dir w.
Proof.
  revert i w p. induction videos as [|v videos IH]; intros i w p; simpl.
  { exists []. repeat split; [by rewrite app_nil_r | by intros ? ?%not_elem_of_nil]. }
  destruct (is_running e _); simpl;
    [|exists []; repeat split;
      [by rewrite app_nil_r | by intros ? ?%not_elem_of_nil]].
  match goal with
  | |- context [download_single_transcript e cfg ?id ?title ?w0 p] =>
      destruct (download_single_effect e cfg id title w0 p)
        as (_ & [k Hcalls] & _ & Hd);
      destruct (download_single_transcript e cfg id title w0 p)
        as [[ok w1] p1] eqn:E
  end.
  simpl in Hcalls, Hd.
  match goal with
  | |- context [download_all e cfg (S i) videos ?w2 p1] =>
      destruct (IH (S i) w2 p1) as (fetched & Hrest & Hin & Hd');
      assert (api_calls w2 = api_calls w1 ∧ pdf_dir w2 = pdf_dir w1)
        as [Ha2 Hd2] by (by destruct (_ =? _)%nat)
  end.
  exists (replicate k (video_id v) ++ fetched). split; [|split].
  - by rewrite Hrest, Ha2, Hcalls, app_assoc.
  - intros id Hid. apply elem_of_app in Hid as [Hid|Hid].
    + apply elem_of_replicate in Hid as [-> _]. apply list_elem_of_here.
    + apply list_elem_of_further. by apply Hin.
  - by rewrite Hd', Hd2, Hd.
Qed.

Lemma download_phase_calls e cfg videos w p :
  let r := download_phase e cfg videos w p in
  ∃ fetched,
    api_calls r.2 = api_calls w ++ fetched
    ∧ (∀ id, id ∈ fetched →
         id ∈ video_id <$> videos
         ∧ (id ∉ default [] (completed_videos p))
         ∧ (id ∉ get_existing_transcripts (transcript_dir w)))
    ∧ pdf_dir r.2 = pdf_dir w.
Proof.
  unfold download_phase.
  set (existing := get_existing_transcripts (transcript_dir w)).
  set (remaining := remaining_videos (reconcile p existing) videos).
  assert (∀ v, v ∈ remaining →
               v ∈ videos ∧ (video_id v ∉ default [] (completed_videos p))
               ∧ (video_id v ∉ existing)) as Hrem
    by (intros v; apply elem_of_remaining_videos).
  destruct remaining as [|v0 rest] eqn:E.
  { exists []. split; [by rewrite app_nil_r|]. split; [|done].
    by intros ? ?%not_elem_of_nil. }
  rewrite <- E in *. clear E.
  destruct (download_all_calls e cfg remaining 0 w (reconcile p existing))
    as (fetched & Hcalls & Hin & Hd).
  destruct (download_all e cfg 0 remaining w _) as [[finished w1] p1].
  simpl in *. exists fetched. split; [|split].
  - by destruct finished.
  - intros id (v & -> & Hv)%Hin%list_elem_of_fmap.
    destruct (Hrem v Hv) as (? & ? & ?).
    split; [by apply list_elem_of_fmap_2 | done].
  - by destruct finished.
Qed.

Lemma create_pdfs_api_calls cfg name w :
  api_calls (create_pdfs_from_transcripts cfg name w).2 = api_calls w.
Proof. done. Qed.

Lemma write_archive_frame e w :
  let r := write_archive e w in
  transcript_dir r.1 = transcript_dir w
  ∧ progress_file r.1 = progress_file w
  ∧ api_calls r.1 = api_calls w.
Proof.
  unfold write_archive. destruct (pdf_dir w); [|done].
  destruct (zip_fault e) as [[|k]|]; try done. simpl.
  destruct (k <? _)%nat; [done|]. by destruct (k =? _)%nat.
Qed.

Lemma rmtree_frame e w :
  let r := rmtree e w in
  progress_file r.1 = progress_file w
  ∧ pdf_dir r.1 = pdf_dir w
  ∧ api_calls r.1 = api_calls w.
Proof.
  unfold rmtree. destruct (transcript_dir w); [|done].
  by destruct (rmtree_fault e).
Qed.

Lemma remove_progress_frame e w :
  let r := remove_progress e w in
  transcript_dir r.1 = transcript_dir w
  ∧ pdf_dir r.1 = pdf_dir w
  ∧ api_calls r.1 = api_calls w.
Proof.
  unfold remove_progress. destruct (progress_file w); [|done].
  by destruct (remove_fault e).
Qed.

Lemma perform_cleanup_api_calls e w :
  api_calls (perform_cleanup e w).2 = api_calls w.
Proof.
  unfold perform_cleanup.
  destruct (write_archive_frame e w) as (_ & _ & H1).
  destruct (write_archive e w) as [w1 ok1]. simpl in H1.
  destruct ok1; simpl; [|done].
  destruct (rmtree_frame e w1) as (_ & _ & H2).
  destruct (rmtree e w1) as [w2 ok2]. simpl in H2.
  destruct ok2; simpl; [|congruence].
  destruct (remove_progress_frame e w2) as (_ & _ & H3).
  destruct (remove_progress e w2) as [w3 ok3]. simpl in H3.
  destruct ok3; simpl; congruence.
Qed.

(** No video that the progress file records as completed, and no video
    whose id the directory scan finds, is fetched during a pass. *)
Lemma process_channel_calls e cfg url name videos w :
  let r := process_channel e cfg url name videos w in
  ∃ fetched,
    api_calls r.2 = api_calls w ++ fetched
    ∧ ∀ id, id ∈ fetched →
        id ∈ video_id <$> videos
        ∧ (id ∉ default [] (completed_videos (load_progress w)))
        ∧ (id ∉ get_existing_transcripts (transcript_dir w)).
Proof.
  unfold process_channel. simpl.
  destruct (is_running e _); simpl;
    [|exists []; split; [by rewrite app_nil_r | by intros ? ?%not_elem_of_nil]].
  destruct videos as [|v0 rest] eqn:E;
    [exists []; split; [by rewrite app_nil_r | by intros ? ?%not_elem_of_nil]|].
  rewrite <- E. clear E.
  match goal with
  | |- context [download_phase e cfg videos ?w0 ?p0] =>
      destruct (download_phase_calls e cfg videos w0 p0)
        as (fetched & Hcalls & Hin & _);
      destruct (download_phase e cfg videos w0 p0) as [finished w1]
  end.
  simpl in *. exists fetched. split; [|done].
  destruct finished; simpl; [|done].
  destruct (is_running e _); simpl; [|done].
  match goal with
  | |- context [perform_cleanup e ?w2] =>
      pose proof (perform_cleanup_api_calls e w2) as Hclean;
      destruct (perform_cleanup e w2) as [clean w3]
  end.
  simpl in *. congruence.
Qed.

Lemma transcript_name_shape id title :
  ∃ pre, transcript_name id title = pre +:+ "(" +:+ id +:+ ").txt".
Proof.
  exists (Str.take 150 (remove_illegal title) +:+ " ").
  unfold transcript_name. by rewrite append_assoc.
Qed.

Lemma save_transcript_file id title lines w :
  ∃ files,
    transcript_dir (save_transcript id title lines w) = Some files
    ∧ files !! transcript_name id title = Some (Str.join newline lines).
Proof. eexists. split; [done|]. apply lookup_insert_eq. Qed.

(** A transcript file whose video id is made of eleven word characters
    is found by the scan, and the video is not fetched in the pass. *)
Lemma word_id_is_skipped e cfg url name videos w files id title :
  transcript_dir w = Some files →
  is_Some (files !! transcript_name id title) →
  String.length id = 11%nat → Str.all_chars Str.is_word id = true →
  id ∈ get_existing_transcripts (transcript_dir w)
  ∧ ∃ fetched,
      api_calls (process_channel e cfg url name videos w).2
      = api_calls w ++ fetched
      ∧ id ∉ fetched.
Proof.
  intros Hdir Hfile Hlen Hword.
  assert (id ∈ get_existing_transcripts (transcript_dir w)) as Hscan.
  { apply elem_of_existing_transcripts.
    exists files, (transcript_name id title). repeat split; [done..|].
    destruct (transcript_name_shape id title) as [pre ->].
    by apply search_id_complete. }
  split; [done|].
  destruct (process_channel_calls e cfg url name videos w)
    as (fetched & Hcalls & Hin).
  exists fetched. split; [done|]. intros Hid. by apply Hin in Hid as (_ & _ & ?).
Qed.

(** C1 (defect of the code).  The completed list of a pass is the union
    of the recorded list and the scanned ids, but the scan does not find
    every transcript file: with no progress file and the transcript of the
    video [abc-def_123] on disk, as [save_transcript] wrote it, the pass
    fetches that video again. *)
Theorem hyphen_id_is_fetched_again :
  let service := λ (_ : nat) (_ : string), Transcript ["never gonna"] in
  let w := save_transcript "abc-def_123" "Never Gonna Give You Up"
             ["never gonna"] empty_world in
  let videos := [VideoInfo "abc-def_123" "Never Gonna Give You Up"] in
  progress_file w = None
  ∧ transcript_dir w
    = Some {[ "Never Gonna Give You Up (abc-def_123).txt" := "never gonna" ]}
  ∧ get_existing_transcripts (transcript_dir w) = ∅
  ∧ api_calls (process_channel (calm service) default_settings
                 "https://www.youtube.com/@rick" "rick" videos w).2
    = ["abc-def_123"].
Proof.
  intros service w videos.
  repeat split; vm_compute; reflexivity.
Qed.

(** C9.  A name that ends in [.txt] is matched by the scan only when it
    ends with an opening parenthesis, eleven word characters, a closing
    parenthesis and [.txt]; so the file that [save_transcript] writes for
    a video whose eleven-character id contains a hyphen is on disk but is
    never matched, the scan does not report the video, and a pass whose
    progress record does not list the video selects it for download
    again. *)
Theorem scan_misses_hyphen_ids :
  (∀ stem g,
     Str.ascii_text stem = true →
     search_id (stem +:+ ".txt") = Some g →
     ∃ pre, stem +:+ ".txt" = pre +:+ "(" +:+ g +:+ ").txt"
            ∧ String.length g = 11%nat
            ∧ Str.all_chars Str.is_word g = true)
  ∧ (∀ id title lines w,
       Str.ascii_text id = true → Str.ascii_text title = true →
       String.length id = 11%nat →
       Str.any_char (Ascii.eqb "-") id = true →
       let w' := save_transcript id title lines w in
       (∃ files,
          transcript_dir w' = Some files
          ∧ files !! transcript_name id title = Some (Str.join newline lines))
       ∧ search_id (transcript_name id title) = None
       ∧ (id ∉ get_existing_transcripts (transcript_dir w'))
       ∧ (∀ p videos v,
            v ∈ videos → video_id v = id →
            (id ∉ default [] (completed_videos p)) →
            v ∈ remaining_videos
                  (reconcile p (get_existing_transcripts (transcript_dir w')))
                  videos)).
Proof.
  split; [intros stem g _; apply search_id_txt|].
  intros id title lines w _ _ Hlen Hhyphen w'.
  assert (∀ dir, id ∉ get_existing_transcripts dir) as Hscan.
  { intros dir [_ Hword]%existing_transcripts_word.
    by rewrite (hyphen_not_word id Hhyphen) in Hword. }
  split; [apply save_transcript_file|]. split; [|split; [apply Hscan|]].
  - destruct (search_id (transcript_name id title)) as [g|] eqn:E; [|done].
    exfalso. destruct (transcript_name_shape id title) as [pre Hname].
    rewrite Hname in E.
    apply search_id_spec in E as (pre' & tail & Heq & Htail & Hg & Hword).
    destruct Htail as [->| ->].
    + rewrite <- (append_assoc pre), <- (append_assoc pre') in Heq.
      apply append_inj_length in Heq as [_ Heq];
        [|by rewrite !length_append, Hlen, Hg].
      apply append_inj_length in Heq as [<- _]; [|done].
      by rewrite (hyphen_not_word _ Hhyphen) in Hword.
    + apply (f_equal Str.last_char) in Heq.
      by rewrite !last_char_app in Heq.
  - intros p videos v Hv <- Hp. apply elem_of_remaining_videos.
    split; [done|]. split; [done|apply Hscan].
Qed.

Lemma scan_misses_hyphen_ids_witness :
  let w' := save_transcript "abc-def_123" "A title" ["text"] empty_world in
  let v := VideoInfo "abc-def_123" "A title" in
  search_id "A title (abc-def_123).txt" = None
  ∧ v ∈ remaining_videos
          (reconcile empty_progress
             (get_existing_transcripts (transcript_dir w')))
          [v].
Proof.
  intros w' v.
  destruct scan_misses_hyphen_ids as [_ H].
  destruct (H "abc-def_123" "A title" ["text"] empty_world)
    as (_ & Hname & _ & Hsel); [reflexivity..|].
  split; [exact Hname|].
  apply (Hsel empty_progress [v] v);
    [apply list_elem_of_here | reflexivity | apply not_elem_of_nil].
Defined.

(** ** Videos without transcript *)

Lemma recorded_other X id p p' :
  recorded id p p' → id ≠ X →
  failed_count X p' = failed_count X p
  ∧ (X ∉ default [] (completed_videos p) →
     X ∉ default [] (completed_videos p')).
Proof.
  intros [| |reason] Hne; [done| |].
  - split; [done|]. simpl. intros Hp [Hin|Hin%list_elem_of_singleton]%elem_of_app;
      [done | congruence].
  - split; [|done]. unfold failed_count. simpl.
    rewrite filter_app, length_app, filter_cons_False by done.
    simpl. lia.
Qed.

Lemma fetch_count_other X id k w w' :
  api_calls w' = api_calls w ++ replicate k id → id ≠ X →
  fetch_count X w' = fetch_count X w.
Proof.
  intros Ha Hne. unfold fetch_count. rewrite Ha, filter_app, length_app.
  assert (filter (λ x, x = X) (replicate k id) = []) as ->; [|simpl; lia].
  clear Ha. induction k as [|k IH]; [done|].
  change (replicate (S k) id) with (id :: replicate k id).
  by rewrite filter_cons_False.
Qed.

Lemma listed_count_cons X v videos :
  listed_count X (v :: videos)
  = ((if decide (video_id v = X) then 1 else 0) + listed_count X videos)%nat.
Proof.
  unfold listed_count. rewrite filter_cons. by destruct (decide _).
Qed.

(** The loop over the videos of a pass, when the service has no
    transcript for [X] and the run is not stopped. *)
Lemma download_all_unavailable e cfg X :
  (∀ k, is_running e k = true) →
  delay_raises (delay_between_requests cfg) = false →
  (0 < max_retries cfg)%Z →
  (∀ n, ∃ reason, get_transcript e n X = Unavailable reason) →
  ∀ videos i w p,
    let r := download_all e cfg i videos w p in
    r.1.1 = true
    ∧ failed_count X r.2 = (failed_count X p + listed_count X videos)%nat
    ∧ fetch_count X r.1.2 = (fetch_count X w + listed_count X videos)%nat
    ∧ (X ∉ default [] (completed_videos p) →
       X ∉ default [] (completed_videos r.2)).
Proof.
  intros Hrun Hdelay Hpos Hservice.
  induction videos as [|v videos IH]; intros i w p; simpl.
  { unfold listed_count. simpl. repeat split; [lia..|done]. }
  rewrite Hrun, listed_count_cons. simpl.
  match goal with
  | |- context [download_single_transcript e cfg ?id ?title ?w0 p] =>
      set (w1 := w0);
      pose proof (download_single_effect e cfg id title w1 p)
        as (Hrec & [k Hcalls] & _ & _)
  end.
  assert (fetch_count X w1 = fetch_count X w) as Hw1 by done.
  destruct (decide (video_id v = X)) as [HX|HX].
  - destruct (Hservice (length (api_calls w1))) as [reason Hreason].
    rewrite <- HX in Hreason.
    destruct (download_single_unavailable e cfg (video_id v) (video_title v)
                w1 p reason Hrun Hdelay Hpos Hreason)
      as (_ & Hp & Ha & _).
    destruct (download_single_transcript e cfg _ _ w1 p) as [[ok w2] p2].
    simpl in *. subst p2.
    match goal with
    | |- context [download_all e cfg (S i) videos ?w3 _] =>
        destruct (IH (S i) w3 (add_failed (video_id v) reason p))
          as (H1 & H2 & H3 & H4);
        assert (fetch_count X w3 = S (fetch_count X w)) as Hw3
    end.
    { rewrite <- Hw1. unfold fetch_count.
      assert (∀ w', api_calls w' = api_calls w2 →
                    length (filter (λ x, x = X) (api_calls w'))
                    = S (length (filter (λ x, x = X) (api_calls w1)))) as Hc.
      { intros w' ->.
        rewrite Ha, filter_app, length_app, filter_cons_True by done.
        simpl. lia. }
      by destruct (_ =? _)%nat; apply Hc. }
    split; [done|]. split; [|split; [|done]].
    + rewrite H2. unfold failed_count. simpl.
      rewrite filter_app, length_app, filter_cons_True by done.
      simpl. lia.
    + rewrite H3, Hw3. lia.
  - destruct (download_single_transcript e cfg _ _ w1 p) as [[ok w2] p2].
    simpl in *.
    destruct (recorded_other X _ _ _ Hrec HX) as [Hf Hc].
    match goal with
    | |- context [download_all e cfg (S i) videos ?w3 _] =>
        destruct (IH (S i) w3 p2) as (H1 & H2 & H3 & H4);
        assert (fetch_count X w3 = fetch_count X w) as Hw3
    end.
    { rewrite <- Hw1.
      assert (∀ w', api_calls w' = api_calls w2 →
                    fetch_count X w' = fetch_count X w1) as Hsame.
      { intros w' Hw'.
        apply (fetch_count_other X (video_id v) k); [by rewrite Hw'|done]. }
      by destruct (_ =? _)%nat; apply Hsame. }
    split; [done|]. split; [|split; [|auto]].
    + rewrite H2, Hf. lia.
    + rewrite H3, Hw3. lia.
Qed.

Lemma listed_count_remaining X p videos :
  X ∉ default [] (completed_videos p) →
  listed_count X (remaining_videos p videos) = listed_count X videos.
Proof.
  intros HX. unfold remaining_videos.
  induction videos as [|v videos IH]; [done|].
  rewrite filter_cons, (listed_count_cons X v videos).
  destruct (decide (video_id v ∉ _)) as [Hv|Hv].
  - by rewrite listed_count_cons, IH.
  - rewrite IH. destruct (decide (video_id v = X)) as [<-|]; [|done].
    by destruct Hv.
Qed.

Lemma listed_count_pos X videos :
  X ∈ video_id <$> videos → (0 < listed_count X videos)%nat.
Proof.
  induction videos as [|v videos IH]; [by intros ?%not_elem_of_nil|].
  rewrite fmap_cons, listed_count_cons.
  intros [->|Hin]%elem_of_cons.
  - rewrite decide_True by done. lia.
  - specialize (IH Hin). lia.
Qed.

(** The selection of line 182 never looks at [failed_videos]. *)
Lemma remaining_videos_ignores_failed failed p existing videos :
  remaining_videos (reconcile (with_failed failed p) existing) videos
  = remaining_videos (reconcile p existing) videos.
Proof. done. Qed.

(** C10.  The selection of the videos to download does not depend on
    [failed_videos].  So in every pass that is not stopped, a video [X] of
    the channel for which the service has no transcript, and which is
    neither recorded as completed nor found by the scan, is fetched again
    (once per listing), however often [failed_videos] already names it;
    every such fetch appends one more entry for [X] to [failed_videos],
    the progress file saved at the end of the download phase holds these
    entries, and [X] still is not completed, so that the next pass does
    the same. *)
Theorem failed_videos_are_fetched_again e cfg videos w p X :
  (∀ k, is_running e k = true) →
  delay_raises (delay_between_requests cfg) = false →
  (0 < max_retries cfg)%Z →
  (∀ n, ∃ reason, get_transcript e n X = Unavailable reason) →
  X ∈ video_id <$> videos →
  X ∉ default [] (completed_videos p) →
  X ∉ get_existing_transcripts (transcript_dir w) →
  (∀ failed existing,
     remaining_videos (reconcile (with_failed failed p) existing) videos
     = remaining_videos (reconcile p existing) videos)
  ∧ let r := download_phase e cfg videos w p in
    let n := listed_count X videos in
    r.1 = true
    ∧ (0 < n)%nat
    ∧ fetch_count X r.2 = (fetch_count X w + n)%nat
    ∧ ∃ p', progress_file r.2 = Some p'
            ∧ failed_count X p' = (failed_count X p + n)%nat
            ∧ X ∉ default [] (completed_videos p').
Proof.
  intros Hrun Hdelay Hpos Hservice Hlisted Hp Hscan.
  split; [intros; apply remaining_videos_ignores_failed|].
  intros r n. subst r. unfold download_phase.
  set (p0 := reconcile p (get_existing_transcripts (transcript_dir w))).
  assert (X ∉ default [] (completed_videos p0)) as Hp0.
  { unfold p0. rewrite elem_of_reconciled. tauto. }
  pose proof (listed_count_pos X videos Hlisted) as Hn. fold n in Hn.
  pose proof (listed_count_remaining X p0 videos Hp0) as Hrem. fold n in Hrem.
  destruct (remaining_videos p0 videos) as [|v0 rest] eqn:E.
  { unfold listed_count in Hrem. simpl in Hrem. lia. }
  rewrite <- E in *. clear E.
  destruct (download_all_unavailable e cfg X Hrun Hdelay Hpos Hservice
              (remaining_videos p0 videos) 0%nat w p0)
    as (H1 & H2 & H3 & H4).
  destruct (download_all e cfg 0 (remaining_videos p0 videos) w p0)
    as [[finished w1] p1].
  simpl in *. subst finished. simpl. rewrite Hrem in H2, H3.
  split; [done|]. split; [done|]. split; [done|].
  exists p1. split; [done|]. split; [done | auto].
Qed.

Lemma failed_videos_are_fetched_again_witness :
  let X := "dQw4w9WgXcQ" in
  let p := with_failed (Some [FailedEntry X "Subtitles are disabled"])
             empty_progress in
  let r := download_phase
             (calm (λ _ _, Unavailable "Subtitles are disabled"))
             default_settings [VideoInfo X "A title"] empty_world p in
  fetch_count X r.2 = 1%nat
  ∧ ∃ p', progress_file r.2 = Some p' ∧ failed_count X p' = 2%nat.
Proof.
  intros X p r.
  destruct (failed_videos_are_fetched_again
              (calm (λ _ _, Unavailable "Subtitles are disabled"))
              default_settings [VideoInfo X "A title"] empty_world p X)
    as (_ & _ & _ & Hfetch & p' & Hfile & Hcount & _).
  - reflexivity.
  - reflexivity.
  - reflexivity.
  - intros n. by eexists.
  - apply list_elem_of_here.
  - apply not_elem_of_nil.
  - apply not_elem_of_empty.
  - split; [exact Hfetch|]. exists p'. split; [exact Hfile | exact Hcount].
Defined.

(** ** The archiver *)

(** When an operation on the zip file raises. *)
Lemma write_archive_fails e w :
  (write_archive e w).2 = false ↔
  pdf_dir w = None
  ∨ ∃ k, zip_fault e = Some k ∧ (k ≤ S (length (archive_members w)))%nat.
Proof.
  unfold write_archive. destruct (pdf_dir w) as [folder|]; [|by split; auto].
  destruct (zip_fault e) as [[|k]|]; simpl.
  - split; [intros _; right; exists O; split; [done|lia] | done].
  - destruct (Nat.ltb_spec k (length (archive_members w))); simpl.
    + split; [intros _; right; exists (S k); split; [done|lia] | done].
    + destruct (Nat.eqb_spec k (length (archive_members w))); simpl.
      * split; [intros _; right; exists (S k); split; [done|lia] | done].
      * split; [done|]. intros [|(k' & [= <-] & ?)]; [done|lia].
  - split; [done|]. by intros [|(k' & ? & ?)].
Qed.

Lemma write_archive_complete e w w' :
  write_archive e w = (w', true) →
  ∃ folder, pdf_dir w' = Some folder
            ∧ archive folder = Some (Zip (archive_members w) true).
Proof.
  unfold write_archive. destruct (pdf_dir w) as [folder|]; [|done].
  destruct (zip_fault e) as [[|k]|]; simpl; try done.
  - destruct (k <? _)%nat; [done|]. destruct (k =? _)%nat; [done|].
    intros [= <-]. by eexists.
  - intros [= <-]. by eexists.
Qed.

(** C4.  [perform_cleanup] removes the transcript directory and the
    progress file only after the archive was written completely: when an
    operation on the zip file raises, the result is [False] and the
    transcript directory and the progress file are as they were; whenever
    either of them has changed, the archive is complete and holds every
    transcript file and the progress file; and the result [True] means
    that both are gone and the archive is complete. *)
Theorem cleanup_after_archive e w :
  let r := perform_cleanup e w in
  ((write_archive e w).2 = false →
   r.1 = false
   ∧ transcript_dir r.2 = transcript_dir w
   ∧ progress_file r.2 = progress_file w)
  ∧ (transcript_dir r.2 ≠ transcript_dir w
     ∨ progress_file r.2 ≠ progress_file w →
     ∃ folder, pdf_dir r.2 = Some folder
               ∧ archive folder = Some (Zip (archive_members w) true))
  ∧ (r.1 = true →
     transcript_dir r.2 = None ∧ progress_file r.2 = None
     ∧ ∃ folder, pdf_dir r.2 = Some folder
                 ∧ archive folder = Some (Zip (archive_members w) true)).
Proof.
  intros r. subst r. unfold perform_cleanup.
  destruct (write_archive_frame e w) as (Ht1 & Hp1 & _).
  pose proof (write_archive_complete e w) as Hzip.
  destruct (write_archive e w) as [w1 ok1]. simpl in Ht1, Hp1.
  destruct ok1; simpl.
  2:{ split; [done|]. split; [|done]. intros [?|?]; congruence. }
  destruct (Hzip w1 eq_refl) as (folder & Hfolder & Harchive).
  split; [done|].
  destruct (rmtree_frame e w1) as (Hp2 & Hd2 & _).
  assert ((rmtree e w1).2 = true → transcript_dir (rmtree e w1).1 = None) as Ht2.
  { unfold rmtree. destruct (transcript_dir w1) eqn:E; [|done].
    by destruct (rmtree_fault e). }
  destruct (rmtree e w1) as [w2 ok2]. simpl in Hp2, Hd2, Ht2.
  destruct ok2; simpl.
  2:{ split; [|done]. intros _. exists folder. by rewrite Hd2. }
  destruct (remove_progress_frame e w2) as (Ht3 & Hd3 & _).
  assert ((remove_progress e w2).2 = true →
          progress_file (remove_progress e w2).1 = None) as Hp3.
  { unfold remove_progress. destruct (progress_file w2) eqn:E; [|done].
    by destruct (remove_fault e). }
  destruct (remove_progress e w2) as [w3 ok3]. simpl in Ht3, Hd3, Hp3.
  assert (∃ folder, pdf_dir w3 = Some folder
                    ∧ archive folder = Some (Zip (archive_members w) true))
    as Hdone by (exists folder; by rewrite Hd3, Hd2).
  destruct ok3; simpl; [|by split].
  split; [done|]. intros _. rewrite Ht3. auto.
Qed.

Lemma cleanup_after_archive_witness :
  let e := Env (λ _, true) (λ _, O) (λ _ _, OtherError "") (Some 1%nat)
             None false in
  let w := World (Some empty_progress)
             (Some {[ "A title (dQw4w9WgXcQ).txt" := "text" ]})
             (Some empty_folder) [] 0 in
  (perform_cleanup e w).1 = false
  ∧ transcript_dir (perform_cleanup e w).2 = transcript_dir w
  ∧ progress_file (perform_cleanup e w).2 = progress_file w.
Proof.
  intros e w. apply (cleanup_after_archive e w). reflexivity.
Defined.

(** ** The paginator *)

Global Instance name_le_total : Total name_le.
Proof. intros a b. apply (total String.le). Qed.

Lemma txt_files_sorted folder : Sorted name_le (txt_files folder).
Proof.
  destruct folder as [files|]; simpl; [|constructor].
  apply (Sorted_merge_sort name_le).
Qed.

Lemma txt_files_listing files name content :
  (name, content) ∈ txt_files (Some files) ↔
  files !! name = Some content ∧ glob_txt name = true.
Proof.
  simpl. rewrite merge_sort_Permutation, list_elem_of_filter.
  rewrite elem_of_map_to_list. simpl. tauto.
Qed.

Lemma overflows_spec cfg st n :
  overflows cfg st n = true ↔
  (max_words_per_pdf cfg < Z.of_nat (word_count st + n))%Z
  ∧ (0 < files_in_pdf st)%nat.
Proof.
  unfold overflows. rewrite andb_true_iff, Z.ltb_lt, Nat.ltb_lt. done.
Qed.

Lemma numbered_snoc name k groups g :
  numbered name k (groups ++ [g])
  = numbered name k groups
    ++ [((k + length groups)%nat, render name (k + length groups) g)].
Proof.
  revert k. induction groups as [|g' groups IH]; intros k; simpl.
  - by rewrite Nat.add_0_r.
  - rewrite IH. by replace (S k + length groups)%nat
                     with (k + S (length groups))%nat by lia.
Qed.

Lemma render_snoc name k group file :
  render name k (group ++ [file]) = render name k group ++ section_of file.
Proof.
  unfold render. rewrite fmap_app, concat_app. simpl.
  by rewrite ?app_nil_r.
Qed.

Lemma group_words_snoc group file :
  group_words (group ++ [file]) = (group_words group + file_words file)%nat.
Proof.
  unfold group_words. rewrite sum_list_with_app. simpl. lia.
Qed.

(** What holds of the paginator after the files [seen]: the documents
    built so far are the groups [groups], the open document holds the
    files [current]. *)
Record paginated (cfg : config) (name : string)
  (seen : list (string * string)) (st : paginator)
  (groups : list (list (string * string)))
  (current : list (string * string)) : Prop := {
  pg_seen : concat groups ++ current = seen;
  pg_built : built st = numbered name 1 groups;
  pg_number : pdf_number st = S (length groups);
  pg_story : story st = render name (pdf_number st) current;
  pg_words : word_count st = group_words current;
  pg_files : files_in_pdf st = length current;
  pg_groups :
    Forall (λ g, g ≠ []
                 ∧ ((2 ≤ length g)%nat →
                    (Z.of_nat (group_words g) ≤ max_words_per_pdf cfg)%Z))
           groups;
  pg_current :
    (2 ≤ length current)%nat →
    (Z.of_nat (group_words current) ≤ max_words_per_pdf cfg)%Z;
  pg_large :
    ∀ f, f ∈ seen →
         (max_words_per_pdf cfg < Z.of_nat (file_words f))%Z →
         [f] ∈ groups ∨ current = [f]
}.

Lemma paginated_start cfg name : paginated cfg name [] (start name) [] [].
Proof.
  split; try done; simpl; try lia. by intros f ?%not_elem_of_nil.
Qed.

Lemma paginated_step cfg name seen st groups current file :
  paginated cfg name seen st groups current →
  ∃ groups' current',
    paginated cfg name (seen ++ [file]) (add_file cfg name st file)
      groups' current'.
Proof.
  intros [Hseen Hbuilt Hnum Hstory Hwords Hfiles Hgroups Hcur Hlarge].
  unfold add_file. fold (file_words file).
  destruct (overflows cfg st (file_words file)) eqn:Hover.
  - apply overflows_spec in Hover as [Hmax Hpos].
    exists (groups ++ [current]), [file]. split; simpl.
    + rewrite concat_app. simpl. by rewrite app_nil_r, Hseen.
    + rewrite numbered_snoc, Hbuilt. simpl. by rewrite Hnum, Hstory, Hnum.
    + rewrite length_app. simpl. lia.
    + unfold render. simpl. by rewrite ?app_nil_r.
    + unfold group_words. simpl. lia.
    + done.
    + apply Forall_app. split; [done|]. apply Forall_singleton.
      split; [|done]. intros ->. simpl in Hfiles. lia.
    + lia.
    + intros f [Hf|Hf%list_elem_of_singleton]%elem_of_app Hbig;
        [|subst f; by right].
      left. apply elem_of_app.
      destruct (Hlarge f Hf Hbig) as [?| ->]; [by left|].
      right. by apply list_elem_of_singleton.
  - exists groups, (current ++ [file]). split; simpl.
    + by rewrite app_assoc, Hseen.
    + done.
    + done.
    + by rewrite Hstory, render_snoc.
    + by rewrite Hwords, group_words_snoc.
    + rewrite length_app. simpl. lia.
    + done.
    + rewrite length_app, group_words_snoc. simpl. intros Htwo.
      destruct (Z.ltb_spec (max_words_per_pdf cfg)
                  (Z.of_nat (word_count st + file_words file)))
        as [Hlt|Hle]; [|by rewrite <- Hwords].
      exfalso. apply not_true_iff_false in Hover. apply Hover.
      apply overflows_spec. split; [done|]. lia.
    + assert (max_words_per_pdf cfg < Z.of_nat (file_words file) →
              current = [])%Z as Hempty.
      { intros Hbig. destruct current as [|f0 rest]; [done|]. exfalso.
        apply not_true_iff_false in Hover. apply Hover.
        apply overflows_spec. split; [lia|]. rewrite Hfiles. simpl. lia. }
      intros f [Hf|Hf%list_elem_of_singleton]%elem_of_app Hbig;
        [|subst f].
      * destruct (Hlarge f Hf Hbig) as [?| ->]; [by left|]. exfalso.
        apply not_true_iff_false in Hover. apply Hover.
        apply overflows_spec. split; [|rewrite Hfiles; simpl; lia].
        rewrite Hwords. unfold group_words. simpl. lia.
      * right. by rewrite (Hempty Hbig).
Qed.

Lemma paginated_foldl cfg name files seen st groups current :
  paginated cfg name seen st groups current →
  ∃ groups' current',
    paginated cfg name (seen ++ files)
      (foldl (add_file cfg name) st files) groups' current'.
Proof.
  revert seen st groups current.
  induction files as [|file files IH]; intros seen st groups current Hinv.
  - rewrite app_nil_r. eauto.
  - destruct (paginated_step cfg name seen st groups current file Hinv)
      as (groups' & current' & Hstep).
    simpl. replace (seen ++ file :: files) with ((seen ++ [file]) ++ files)
      by (by rewrite <- app_assoc).
    eapply IH, Hstep.
Qed.

Lemma add_file_overflow cfg name st file :
  overflows cfg st (file_words file) = true →
  let st' := add_file cfg name st file in
  built st' = built st ++ [(pdf_number st, story st)]
  ∧ pdf_number st' = S (pdf_number st)
  ∧ story st' = render name (S (pdf_number st)) [file]
  ∧ word_count st' = file_words file
  ∧ files_in_pdf st' = 1%nat.
Proof.
  intros Hover. unfold add_file. fold (file_words file). rewrite Hover.
  unfold render. simpl. by rewrite ?app_nil_r.
Qed.

Lemma add_file_fits cfg name st file :
  overflows cfg st (file_words file) = false →
  let st' := add_file cfg name st file in
  built st' = built st
  ∧ pdf_number st' = pdf_number st
  ∧ story st' = story st ++ section_of file
  ∧ word_count st' = (word_count st + file_words file)%nat
  ∧ files_in_pdf st' = S (files_in_pdf st).
Proof.
  intros Hover. unfold add_file. fold (file_words file). by rewrite Hover.
Qed.

Lemma paginate_groups cfg name files :
  ∃ groups,
    paginate cfg name files = numbered name 1 groups
    ∧ concat groups = files
    ∧ Forall (λ g, g ≠ []
                   ∧ ((2 ≤ length g)%nat →
                      (Z.of_nat (group_words g) ≤ max_words_per_pdf cfg)%Z))
             groups
    ∧ ∀ f, f ∈ files →
           (max_words_per_pdf cfg < Z.of_nat (file_words f))%Z →
           [f] ∈ groups.
Proof.
  destruct files as [|file0 rest] eqn:E.
  { exists []. repeat split; [constructor | by intros f ?%not_elem_of_nil]. }
  rewrite <- E. assert (paginate cfg name files
    = let st := foldl (add_file cfg name) (start name) files in
      if (0 <? files_in_pdf st)%nat
      then built st ++ [(pdf_number st, story st)]
      else built st) as -> by (by rewrite E).
  clear E file0 rest.
  destruct (paginated_foldl cfg name files [] (start name) [] []
              (paginated_start cfg name))
    as (groups & current & Hinv).
  destruct Hinv as [Hseen Hbuilt Hnum Hstory Hwords Hfiles Hgroups Hcur Hlarge].
  simpl in Hseen. simpl.
  destruct (Nat.ltb_spec 0 (files_in_pdf (foldl (add_file cfg name)
                                            (start name) files)))
    as [Hpos|Hzero].
  - exists (groups ++ [current]). split; [|split; [|split]].
    + by rewrite numbered_snoc, Hbuilt, Hstory, Hnum.
    + rewrite concat_app. simpl. by rewrite app_nil_r.
    + apply Forall_app. split; [done|]. apply Forall_singleton.
      split; [|done]. intros ->. simpl in Hfiles. lia.
    + intros f Hf Hbig. apply elem_of_app.
      destruct (Hlarge f Hf Hbig) as [?| ->]; [by left|].
      right. by apply list_elem_of_singleton.
  - assert (current = []) as -> by (destruct current; [done|simpl in *; lia]).
    rewrite app_nil_r in Hseen.
    exists groups. repeat split; try done.
    intros f Hf Hbig. by destruct (Hlarge f Hf Hbig).
Qed.

(** C2.  For every list of transcript files and every word budget: the
    paginator closes the open document and starts the next one exactly
    when the running word count plus the word count of the next file
    exceeds the budget and the open document already holds a file; the
    documents built are the files in their order, cut into groups without
    splitting a file, every document holds at least one file, every
    document of two or more files has at most the budget of words, a file
    that alone exceeds the budget is the only file of its document, and
    three files of 100 words with the budget 150 give three documents of
    one file each. *)
Theorem pagination cfg name files :
  (∀ st file,
     let n := file_words file in
     let st' := add_file cfg name st file in
     (overflows cfg st n = true ↔
      (max_words_per_pdf cfg < Z.of_nat (word_count st + n))%Z
      ∧ (0 < files_in_pdf st)%nat)
     ∧ (overflows cfg st n = true →
        built st' = built st ++ [(pdf_number st, story st)]
        ∧ pdf_number st' = S (pdf_number st)
        ∧ story st' = render name (S (pdf_number st)) [file]
        ∧ word_count st' = n
        ∧ files_in_pdf st' = 1%nat)
     ∧ (overflows cfg st n = false →
        built st' = built st
        ∧ pdf_number st' = pdf_number st
        ∧ story st' = story st ++ section_of file
        ∧ word_count st' = (word_count st + n)%nat
        ∧ files_in_pdf st' = S (files_in_pdf st)))
  ∧ (∃ groups,
       paginate cfg name files = numbered name 1 groups
       ∧ concat groups = files
       ∧ Forall (λ g, g ≠ []
                      ∧ ((2 ≤ length g)%nat →
                         (Z.of_nat (group_words g)
                          ≤ max_words_per_pdf cfg)%Z))
                groups
       ∧ ∀ f, f ∈ files →
              (max_words_per_pdf cfg < Z.of_nat (file_words f))%Z →
              [f] ∈ groups)
  ∧ (let a := words_file "a.txt" 100 in
     let b := words_file "b.txt" 100 in
     let c := words_file "c.txt" 100 in
     file_words a = 100%nat
     ∧ paginate (Cfg 3 (Seconds 6) 30 150) name [a; b; c]
       = numbered name 1 [[a]; [b]; [c]]).
Proof.
  split; [|split; [apply paginate_groups|]].
  - intros st file n st'. split; [apply overflows_spec|].
    split; [apply add_file_overflow | apply add_file_fits].
  - intros a b c. split; vm_compute; reflexivity.
Qed.

Lemma pagination_witness :
  let big := words_file "b.txt" 7 in
  let files := [words_file "a.txt" 2; big; words_file "c.txt" 1] in
  ∃ groups,
    paginate (Cfg 3 (Seconds 6) 30 5) "channel" files
    = numbered "channel" 1 groups
    ∧ [big] ∈ groups.
Proof.
  intros big files.
  destruct (pagination (Cfg 3 (Seconds 6) 30 5) "channel" files)
    as (_ & (groups & Hdocs & _ & _ & Hbig) & _).
  exists groups. split; [exact Hdocs|]. apply Hbig.
  - apply list_elem_of_further, list_elem_of_here.
  - vm_compute. reflexivity.
Defined.

(** ** The configuration store *)

Section ConfigFacts.
Import Config.

Lemma has_key_set key key' v d :
  has_key key (set key' v d) = has_key key d || String.eqb key' key.
Proof.
  induction d as [|[k v'] d IH]; simpl.
  - by rewrite orb_false_r.
  - destruct (String.eqb_spec k key') as [->|Hne]; simpl.
    + destruct (String.eqb key' key); simpl; [done|].
      by rewrite orb_false_r.
    + rewrite IH. by rewrite orb_assoc.
Qed.

Lemma get_set key key' v d :
  get key (set key' v d) = if String.eqb key' key then Some v else get key d.
Proof.
  induction d as [|[k v'] d IH]; simpl.
  - by destruct (String.eqb key' key).
  - destruct (String.eqb_spec k key') as [->|Hne]; simpl.
    + by destruct (String.eqb key' key).
    + rewrite IH. destruct (String.eqb_spec k key) as [->|]; [|done].
      by destruct (String.eqb_spec key' key) as [->|].
Qed.

Lemma has_key_get key d : has_key key d = true ↔ is_Some (get key d).
Proof.
  induction d as [|[k v] d IH]; simpl.
  - split; [done | by intros [? ?]].
  - destruct (String.eqb k key); simpl; [by split; eauto | done].
Qed.

(** Filling in defaults keeps what is there and adds what is missing. *)
Lemma fill_defaults_keeps defaults config to_save key :
  has_key key config = true →
  has_key key (fill_defaults defaults config to_save).1 = true
  ∧ get key (fill_defaults defaults config to_save).1 = get key config.
Proof.
  revert config to_save.
  induction defaults as [|[k v] defaults IH]; intros config to_save Hkey;
    simpl; [done|].
  destruct (has_key k config) eqn:Hk; [by apply IH|].
  destruct (IH (set k v config) true) as [H1 H2].
  { by rewrite has_key_set, Hkey. }
  split; [done|]. rewrite H2, get_set.
  destruct (String.eqb_spec k key) as [->|]; [congruence | done].
Qed.

Lemma fill_defaults_adds defaults config to_save key :
  key ∈ defaults.*1 →
  has_key key (fill_defaults defaults config to_save).1 = true.
Proof.
  revert config to_save.
  induction defaults as [|[k v] defaults IH]; intros config to_save;
    [by intros ?%not_elem_of_nil|].
  rewrite fmap_cons. simpl. intros [->|Hin]%elem_of_cons.
  - destruct (has_key k config) eqn:Hk.
    + by apply fill_defaults_keeps.
    + apply fill_defaults_keeps. by rewrite has_key_set, String.eqb_refl, orb_true_r.
  - destruct (has_key k config); by apply IH.
Qed.

(** Nothing to save means nothing was filled in. *)
Lemma fill_defaults_clean defaults config to_save :
  (fill_defaults defaults config to_save).2 = false →
  (fill_defaults defaults config to_save).1 = config ∧ to_save = false.
Proof.
  revert config to_save.
  induction defaults as [|[k v] defaults IH]; intros config to_save; simpl;
    [done|].
  destruct (has_key k config); [apply IH|].
  intros H. by destruct (IH _ _ H).
Qed.

(** Whenever [load_config] returns, the configuration has every key of
    [DEFAULT_CONFIG], its channels are a list, and the file holds exactly
    the configuration returned. *)
Lemma complete_spec file config0 to_save0 config file' :
  complete file config0 to_save0 = (config, file') →
  (∀ key, key ∈ DEFAULT_CONFIG.*1 → has_key key config = true)
  ∧ (∃ channels, get "channels" config = Some (JArr channels))
  ∧ (file' = Document (JObj config)
     ∨ to_save0 = false ∧ config = config0 ∧ file' = file).
Proof.
  unfold complete.
  pose proof (fill_defaults_adds DEFAULT_CONFIG config0 to_save0) as Hkeys.
  pose proof (fill_defaults_clean DEFAULT_CONFIG config0 to_save0) as Hfill.
  destruct (fill_defaults DEFAULT_CONFIG config0 to_save0)
    as [config1 to_save1].
  simpl in Hkeys, Hfill.
  assert (has_key "channels" config1 = true) as Hch
    by (apply Hkeys; apply list_elem_of_here).
  rewrite Hch. simpl.
  destruct (get "channels" config1) as [channels|] eqn:Hget;
    [|by apply has_key_get in Hch as [? ?]; congruence].
  simpl. destruct channels; simpl; intros [= <- <-];
    try (split; [|split; [|by left]];
         [ intros key Hkey; rewrite has_key_set, (Hkeys key Hkey); done
         | exists []; by rewrite get_set ]).
  split; [done|]. split; [by eexists|].
  destruct to_save1; [by left|]. right. by destruct Hfill as [-> ->].
Qed.

Lemma load_config_returns file config file' :
  load_config file = Ok (config, file') →
  (∀ key, key ∈ DEFAULT_CONFIG.*1 → has_key key config = true)
  ∧ (∃ channels, get "channels" config = Some (JArr channels))
  ∧ file' = Document (JObj config).
Proof.
  unfold load_config.
  set (loaded := match file with Absent => _ | _ => _ end).
  destruct loaded as [[config0 to_save0]|e] eqn:Hloaded; [|done].
  assert (to_save0 = false → file = Document (JObj config0)) as Hclean.
  { intros ->. subst loaded. destruct file as [| |j]; try done.
    unfold read_and_migrate in Hloaded. destruct j; try done.
    destruct (get "channels" fields) as [channels|]; [|congruence].
    destruct (truthy channels); [|congruence].
    destruct (item0 channels) as [first|[]]; try done.
    destruct (is_str first); congruence. }
  intros [= Hc].
  apply complete_spec in Hc as (H1 & H2 & [H3|(H3 & -> & ->)]); [done|].
  repeat split; [done..|]. by apply Hclean.
Qed.

(** [load_config] raises exactly when the document is not an object, or
    its channels are a number or [true] or a non-empty object. *)
Lemma load_config_raises file e :
  load_config file = Raise e ↔
  (∃ j, file = Document j ∧ e = AttributeError
        ∧ ∀ fields, j ≠ JObj fields)
  ∨ (∃ fields channels,
       file = Document (JObj fields)
       ∧ get "channels" fields = Some channels
       ∧ truthy channels = true
       ∧ item0 channels = Raise e
       ∧ e ≠ IndexError).
Proof.
  unfold load_config. split.
  - destruct file as [| |j]; [done..|]. simpl.
    destruct j; simpl;
      try (intros [= <-]; left; eexists; by repeat split).
    destruct (get "channels" fields) as [channels|] eqn:Hget; [|done].
    destruct (truthy channels) eqn:Htruthy; [|done].
    destruct (item0 channels) as [first|e'] eqn:Hitem.
    + by destruct (is_str first).
    + destruct e'; try done;
        intros [= <-]; right; exists fields, channels; by repeat split.
  - intros [(j & -> & -> & Hj)|(fields & channels & -> & Hget & Ht & Hi & Hne)].
    + destruct j; try done. by destruct (Hj fields).
    + unfold read_and_migrate. rewrite Hget, Ht, Hi.
      destruct e; try done.
      by destruct channels as [| | |[|? ?]|[|? ?]|].
Qed.

(** Channels that are a list are returned as they were read. *)
Lemma complete_keeps_list file config0 to_save0 channels :
  get "channels" config0 = Some (JArr channels) →
  get "channels" (complete file config0 to_save0).1 = Some (JArr channels).
Proof.
  intros Hget. unfold complete.
  assert (has_key "channels" config0 = true) as Hk
    by (apply has_key_get; by rewrite Hget).
  destruct (fill_defaults_keeps DEFAULT_CONFIG config0 to_save0 "channels" Hk)
    as [Hk' Hg'].
  destruct (fill_defaults DEFAULT_CONFIG config0 to_save0) as [config1 b1].
  cbn [fst] in Hk', Hg'. rewrite Hk', Hg', Hget. simpl.
  by rewrite Hg'.
Qed.

(** A legacy list of plain strings is migrated entry by entry. *)
Lemma load_config_migrates fields url urls :
  get "channels" fields = Some (JArr (JStr <$> (url :: urls))) →
  ∃ config,
    load_config (Document (JObj fields))
    = Ok (config, Document (JObj config))
    ∧ get "channels" config
      = Some (JArr ((λ u, channel_entry (JStr u)) <$> (url :: urls))).
Proof.
  intros Hget.
  set (migrated :=
         set "channels"
           (JArr ((λ u, channel_entry (JStr u)) <$> (url :: urls))) fields).
  assert (read_and_migrate (Document (JObj fields)) = Ok (migrated, true))
    as Hread.
  { unfold read_and_migrate. rewrite Hget. cbn. unfold migrated.
    do 4 f_equal. by rewrite <- list_fmap_compose. }
  assert (load_config (Document (JObj fields))
          = Ok (complete (Document (JObj fields)) migrated true)) as Hload
    by (unfold load_config; by rewrite Hread).
  destruct (complete (Document (JObj fields)) migrated true)
    as [config file'] eqn:Hc.
  exists config. split.
  - rewrite Hload. by apply load_config_returns in Hload as (_ & _ & ->).
  - change config with (config, file').1. rewrite <- Hc.
    apply complete_keeps_list. unfold migrated.
    by rewrite get_set, String.eqb_refl.
Qed.

(** C6 (defect of the code).  A configuration file that lacks default
    keys and whose [channels] value is the number 5 makes [load_config]
    raise [TypeError] at line 64 instead of returning a configuration,
    although line 80 means to replace channels that are not a list: for
    [null] in the same place the function returns the defaults with an
    empty channel list and saves them. *)
Theorem load_config_raises_on_scalar_channels :
  load_config (Document (JObj [("channels", JNum 5)])) = Raise TypeError
  ∧ load_config (Document (JObj [("channels", JBool true)])) = Raise TypeError
  ∧ load_config (Document (JObj [("channels", JObj [("a", JNum 1)])]))
    = Raise KeyError
  ∧ load_config (Document (JArr [])) = Raise AttributeError
  ∧ ∃ config,
      load_config (Document (JObj [("channels", JNull)]))
      = Ok (config, Document (JObj config))
      ∧ get "channels" config = Some (JArr [])
      ∧ get "max_retries" config = Some (JNum 3).
Proof. repeat split. eexists. by repeat split. Qed.

End ConfigFacts.

(** ** The channel name *)

Section ChannelName.
Import Str.

Lemma prefix_app sep s :
  String.prefix sep s = true ↔ ∃ r, s = sep +:+ r.
Proof.
  revert s. induction sep as [|c sep IH]; intros s.
  - split; [by exists s | by destruct s].
  - destruct s as [|d s]; simpl; [by split; [|intros [? ?]]|].
    destruct (Ascii.ascii_dec c d) as [->|Hne].
    + rewrite IH. split; intros [r Hr]; exists r; [by rewrite Hr|].
      by injection Hr.
    + split; [done|]. intros [r Hr]. by injection Hr.
Qed.

Lemma contains_cons key c s :
  contains key (String c s) = String.prefix key (String c s) || contains key s.
Proof. done. Qed.

Lemma contains_app_r key pre s :
  contains key s = true → contains key (pre +:+ s) = true.
Proof.
  intros Hs. induction pre as [|c pre IH]; [done|].
  cbn [String.append]. rewrite contains_cons, IH. apply orb_true_r.
Qed.

Lemma split_go_nonempty sep skip cur s : split_go sep skip cur s ≠ [].
Proof.
  revert skip cur.
  induction s as [|c s IH]; intros skip cur; cbn [split_go]; [done|].
  destruct skip; [|apply IH].
  destruct (String.prefix sep (String c s)); [done|apply IH].
Qed.

(** Passing over the rest of a matched separator. *)
Lemma split_go_skip sep skip cur s :
  (skip ≤ String.length s)%nat →
  split_go sep skip cur s = split_go sep 0 cur (drop skip s).
Proof.
  revert s. induction skip as [|skip IH]; intros s Hlen.
  - by destruct s.
  - destruct s as [|c s]; simpl in *; [lia|]. apply IH. lia.
Qed.

(** The last piece of a split: the whole text when the separator does not
    occur, and otherwise what follows an occurrence and holds no other. *)
Lemma split_go_last sep :
  sep ≠ "" →
  ∀ n s cur,
    (String.length s ≤ n)%nat →
    (contains sep s = false
     ∧ List.last (split_go sep 0 cur s) "" = cur +:+ s)
    ∨ (contains sep s = true
       ∧ ∃ pre, s = pre +:+ sep +:+ List.last (split_go sep 0 cur s) ""
                ∧ contains sep (List.last (split_go sep 0 cur s) "") = false).
Proof.
  intros Hsep. induction n as [|n IH]; intros s cur Hlen.
  { destruct s; [|simpl in Hlen; lia]. left. simpl.
    split; [by destruct sep | by rewrite append_empty_r]. }
  destruct s as [|c s].
  { left. simpl. split; [by destruct sep | by rewrite append_empty_r]. }
  cbn [split_go]. rewrite contains_cons.
  destruct (String.prefix sep (String c s)) eqn:Hpre.
  - right. split; [done|].
    apply prefix_app in Hpre as [r Hr].
    assert (drop (String.length sep - 1) s = r
            ∧ (String.length sep - 1 ≤ String.length s)%nat) as [Hdrop Hle].
    { destruct sep as [|d sep]; [done|]. simpl in Hr. injection Hr as -> ->.
      simpl. rewrite Nat.sub_0_r, drop_app_length, length_append.
      split; [done|lia]. }
    rewrite split_go_skip, Hdrop by done.
    assert (∀ x, List.last (x :: split_go sep 0 "" r) ""
                 = List.last (split_go sep 0 "" r) "") as Hlast.
    { intros x. pose proof (split_go_nonempty sep 0 "" r).
      by destruct (split_go sep 0 "" r). }
    rewrite Hlast, Hr.
    destruct (IH r "") as [[Hno Hl]|[Hyes (pre & Hpre' & Hno)]].
    { apply (f_equal String.length) in Hr. rewrite length_append in Hr.
      simpl in Hr, Hlen. destruct sep; [done|]. simpl in Hr. lia. }
    + exists "". by rewrite Hl.
    + exists (sep +:+ pre). split; [|done].
      by rewrite append_assoc, <- Hpre'.
  - simpl. destruct (IH s (cur +:+ String c "")) as [[Hno Hl]|[Hyes H]].
    { simpl in Hlen. lia. }
    + left. split; [done|]. by rewrite Hl, append_assoc.
    + right. split; [done|]. destruct H as (pre & Hpre' & Hno).
      exists (String c pre). split; [|done]. simpl. by rewrite <- Hpre'.
Qed.

Lemma split_last_spec sep s :
  sep ≠ "" →
  (contains sep s = false ∧ split_last sep s = s)
  ∨ (contains sep s = true
     ∧ ∃ pre, s = pre +:+ sep +:+ split_last sep s
              ∧ contains sep (split_last sep s) = false).
Proof.
  intros Hsep. unfold split_last, split.
  by destruct (split_go_last sep Hsep (String.length s) s "")
    as [[? ?]|[? ?]]; [done|left|right].
Qed.

Lemma name_after_spec url :
  match List.find (λ kv, contains kv.1 url) patterns with
  | Some (marker, _) =>
      ∃ pre, url = pre +:+ marker +:+ name_after patterns url
             ∧ contains marker (name_after patterns url) = false
  | None =>
      contains "/" (name_after patterns url) = false
      ∧ (url = name_after patterns url
         ∨ ∃ pre, url = pre +:+ "/" +:+ name_after patterns url)
  end.
Proof.
  unfold patterns. cbn [List.find name_after fst].
  assert (∀ sep, sep ≠ "" → contains sep url = true →
                 ∃ pre, url = pre +:+ sep +:+ split_last sep url
                        ∧ contains sep (split_last sep url) = false) as Hyes.
  { intros sep Hsep Hc.
    destruct (split_last_spec sep url Hsep) as [[? ?]|[_ ?]];
      [congruence | done]. }
  destruct (contains "/@" url) eqn:H1; [by apply Hyes|].
  destruct (contains "/c/" url) eqn:H2; [by apply Hyes|].
  destruct (contains "/channel/" url) eqn:H3; [by apply Hyes|].
  destruct (contains "/user/" url) eqn:H4; [by apply Hyes|].
  destruct (split_last_spec "/" url) as [[Hno ->]|[_ (pre & Hpre & Hno)]];
    [done| |]; eauto.
Qed.

Lemma underscore_unsafe_safe c :
  safe_char (if unsafe_char c then "_"%char else c) = true.
Proof. by destruct c as [[] [] [] [] [] [] [] []]. Qed.

Lemma underscore_unsafe_legal c :
  illegal_char c = false →
  illegal_char (if unsafe_char c then "_"%char else c) = false.
Proof. by destruct c as [[] [] [] [] [] [] [] []]. Qed.

Lemma sanitized_safe text :
  all_chars safe_char (underscore_unsafe (remove_illegal text)) = true
  ∧ any_char illegal_char (underscore_unsafe (remove_illegal text)) = false.
Proof.
  unfold underscore_unsafe, remove_illegal.
  induction text as [|c text [IH1 IH2]]; [done|].
  cbn [filter_chars]. destruct (illegal_char c) eqn:Hc; [done|].
  cbn [negb map_chars all_chars any_char].
  by rewrite underscore_unsafe_safe, underscore_unsafe_legal, IH1, IH2.
Qed.

(** C7, as stated, fails: a hyphen of the name is kept, not replaced by an
    underscore, and the name runs to the end of the URL, not to the end of
    the path segment that follows the marker. *)
Lemma channel_name_differs_from_specified :
  extract_channel_name "https://www.youtube.com/@dr-ekberg"
    ≠ channel_name_as_specified "https://www.youtube.com/@dr-ekberg"
  ∧ extract_channel_name "https://www.youtube.com/@dr-ekberg" = "dr-ekberg"
  ∧ extract_channel_name "https://www.youtube.com/@drekberg/videos"
    ≠ channel_name_as_specified "https://www.youtube.com/@drekberg/videos"
  ∧ extract_channel_name "https://www.youtube.com/@drekberg/videos"
    = "drekbergvideos".
Proof. repeat split; vm_compute; (reflexivity || discriminate). Qed.

(** C7, amended.  For every (ASCII) channel URL, [extract_channel_name]
    works on the URL without its trailing slashes: for the first of the
    markers [/@], [/c/], [/channel/], [/user/], in that order, that occurs
    in it, it takes the text that follows an occurrence of the marker and
    holds no further one, up to the end of the URL; when no marker occurs
    it takes the final path segment.  From that text the illegal
    characters are removed and every character that is left, other than
    word characters, hyphen, underscore and full stop, becomes an
    underscore: the name holds only such characters. *)
Theorem channel_name_shape url :
  ascii_text url = true →
  let name := extract_channel_name url in
  let url' := rstrip_slash url in
  all_chars safe_char name = true
  ∧ any_char illegal_char name = false
  ∧ ∃ text,
      name = underscore_unsafe (remove_illegal text)
      ∧ match List.find (λ kv, contains kv.1 url') patterns with
        | Some (marker, _) =>
            ∃ pre, url' = pre +:+ marker +:+ text
                   ∧ contains marker text = false
        | None =>
            contains "/" text = false
            ∧ (url' = text ∨ ∃ pre, url' = pre +:+ "/" +:+ text)
        end.
Proof.
  intros _ name url'. subst name. unfold extract_channel_name.
  fold url'. destruct (sanitized_safe (name_after patterns url')) as [H1 H2].
  split; [done|]. split; [done|].
  exists (name_after patterns url'). split; [done|]. apply name_after_spec.
Qed.

Lemma channel_name_shape_witness :
  all_chars safe_char
    (extract_channel_name "https://www.youtube.com/c/paul saladino-md/") = true
  ∧ any_char illegal_char
      (extract_channel_name "https://www.youtube.com/c/paul saladino-md/")
    = false.
Proof.
  destruct (channel_name_shape "https://www.youtube.com/c/paul saladino-md/"
              eq_refl) as (H1 & H2 & _).
  exact (conj H1 H2).
Defined.

End ChannelName.

Example channel_id_example :
  generate_channel_id "https://x/@a/" = "c664aadfad3d"
  ∧ extract_channel_name "https://www.youtube.com/@dr-ekberg/" = "dr-ekberg"
  ∧ extract_channel_name "https://www.youtube.com/c/c/x y" = "cx_y"
  ∧ extract_channel_name "https://www.youtube.com/foo/bar" = "bar".
Proof. vm_compute. done. Qed.

(** * Further properties of the code *)

(** ** [load_config] *)

Section ConfigMore.
Import Config.

Lemma fill_defaults_present defaults config to_save :
  (∀ key, key ∈ defaults.*1 → has_key key config = true) →
  fill_defaults defaults config to_save = (config, to_save).
Proof.
  induction defaults as [|[k v] defaults IH]; intros Hkeys; [done|].
  simpl. rewrite (Hkeys k) by apply list_elem_of_here.
  apply IH. intros key Hkey. apply Hkeys. by apply list_elem_of_further.
Qed.

(** The channels that [load_config] returns do not start with a plain
    string: a second migration never happens. *)
Definition settled (channels : list json) : Prop :=
  match channels with
  | [] => True
  | first :: _ => is_str first = false
  end.

Lemma fill_defaults_get defaults config to_save key :
  has_key key config = false → key ∈ defaults.*1 →
  get key (fill_defaults defaults config to_save).1 = get key defaults.
Proof.
  revert config to_save.
  induction defaults as [|[k v] defaults IH]; intros config to_save Hk;
    [by intros ?%not_elem_of_nil|].
  rewrite fmap_cons. cbn [fst fill_defaults get].
  destruct (String.eqb_spec k key) as [->|Hne].
  - intros _. rewrite Hk.
    rewrite (proj2 (fill_defaults_keeps defaults (set key v config) true key
                      ltac:(by rewrite has_key_set, String.eqb_refl,
                              orb_true_r))).
    by rewrite get_set, String.eqb_refl.
  - intros [?|Hin]%elem_of_cons; [congruence|].
    destruct (has_key k config); [by apply IH|].
    apply IH; [|done]. rewrite has_key_set, Hk.
    by apply String.eqb_neq in Hne as ->.
Qed.

Lemma fill_defaults_channels config0 to_save0 :
  has_key "channels" config0 = false →
  get "channels" (fill_defaults DEFAULT_CONFIG config0 to_save0).1
  = get "channels" DEFAULT_CONFIG.
Proof.
  intros Hk. apply fill_defaults_get; [done|apply list_elem_of_here].
Qed.

Lemma complete_channels file config0 to_save0 channels :
  get "channels" (complete file config0 to_save0).1 = Some (JArr channels) →
  channels = []
  ∨ get "channels" config0 = Some (JArr channels)
  ∨ has_key "channels" config0 = false
    ∧ get "channels" DEFAULT_CONFIG = Some (JArr channels).
Proof.
  unfold complete.
  pose proof (fill_defaults_adds DEFAULT_CONFIG config0 to_save0 "channels"
                ltac:(apply list_elem_of_here)) as Hk'.
  assert (get "channels" (fill_defaults DEFAULT_CONFIG config0 to_save0).1
          = get "channels" config0
          ∨ has_key "channels" config0 = false
            ∧ get "channels" (fill_defaults DEFAULT_CONFIG config0 to_save0).1
              = get "channels" DEFAULT_CONFIG) as Hg'.
  { destruct (has_key "channels" config0) eqn:Hk.
    - left. by apply fill_defaults_keeps.
    - right. split; [done|]. by apply fill_defaults_channels. }
  destruct (fill_defaults DEFAULT_CONFIG config0 to_save0) as [config1 b1].
  cbn [fst] in Hk', Hg'. rewrite Hk'. cbn [negb orb].
  destruct (get "channels" config1) as [chs|] eqn:Hg1;
    [|by apply has_key_get in Hk' as [? ?]; congruence].
  cbn [from_option].
  destruct (is_list chs) eqn:Hl; cbn [negb fst].
  - rewrite Hg1. intros [= ->].
    destruct Hg' as [Hg'|[Hk Hg']]; [right; left|right; right]; by rewrite <- Hg'.
  - rewrite get_set, String.eqb_refl. intros [= <-]. by left.
Qed.

Lemma load_config_settled file config file' channels :
  load_config file = Ok (config, file') →
  get "channels" config = Some (JArr channels) →
  settled channels.
Proof.
  unfold load_config.
  set (loaded := match file with Absent => _ | _ => _ end).
  destruct loaded as [[config0 to_save0]|e] eqn:Hloaded; [|done].
  intros [= Hc] Hget.
  assert (config = (complete file config0 to_save0).1) as ->
    by (by rewrite Hc).
  apply complete_channels in Hget as [->|[Hget|[_ Hget]]]; [done| |].
  - subst loaded. destruct file as [| |j].
    + injection Hloaded as <- <-. simpl in Hget. by injection Hget as <-.
    + injection Hloaded as <- <-. simpl in Hget. by injection Hget as <-.
    + unfold read_and_migrate in Hloaded. destruct j; try done.
      destruct (get "channels" fields) as [chs|] eqn:Hg;
        [|injection Hloaded as <- <-; congruence].
      destruct (truthy chs) eqn:Ht.
      * destruct (item0 chs) as [first|[]] eqn:Hi; try done.
        -- destruct (is_str first) eqn:Hs; injection Hloaded as <- <-.
           ++ rewrite get_set in Hget. simpl in Hget. injection Hget as <-.
              destruct chs as [| | |s|[|x l]|]; try done.
              by destruct s.
           ++ rewrite Hg in Hget. injection Hget as ->. simpl in Hi.
              destruct channels; [done|]. by injection Hi as ->.
        -- destruct chs as [| | |[|]|[|]|]; try done.
        -- destruct chs as [| | |[|]|[|]|]; try done.
      * injection Hloaded as <- <-. rewrite Hg in Hget.
        injection Hget as ->. by destruct channels.
  - simpl in Hget. by injection Hget as <-.
Qed.

(** X1.  Whenever [load_config] returns, the configuration has every key
    of [DEFAULT_CONFIG], its channels are a list, and the configuration
    file holds exactly the configuration returned (it was saved, or it
    already was that document); without a file, or with a file that is
    not JSON, the defaults are returned and saved. *)
Theorem load_config_result file config file' :
  load_config file = Ok (config, file') →
  (∀ key, key ∈ DEFAULT_CONFIG.*1 → has_key key config = true)
  ∧ (∃ channels, get "channels" config = Some (JArr channels))
  ∧ file' = Document (JObj config)
  ∧ (file = Absent ∨ file = Malformed → config = DEFAULT_CONFIG).
Proof.
  intros Hload.
  destruct (load_config_returns file config file' Hload) as (H1 & H2 & H3).
  repeat split; try done.
  intros [->| ->]; by injection Hload as <- _.
Qed.

Lemma load_config_result_witness :
  has_key "max_words_per_pdf" DEFAULT_CONFIG = true
  ∧ Document (JObj DEFAULT_CONFIG) = Document (JObj DEFAULT_CONFIG).
Proof.
  destruct (load_config_result Malformed DEFAULT_CONFIG
              (Document (JObj DEFAULT_CONFIG)) eq_refl)
    as (Hkeys & _ & Hfile & _).
  split; [|exact Hfile]. apply Hkeys.
  do 8 apply list_elem_of_further. apply list_elem_of_here.
Defined.

(** X2.  [load_config] lets an exception escape in exactly two cases:
    the JSON document is not an object ([AttributeError]), or its
    [channels] value is truthy and cannot be indexed with 0 (a number or
    [true]: [TypeError]; a non-empty object: [KeyError]). *)
Theorem load_config_raise_cases file e :
  load_config file = Raise e ↔
  (∃ j, file = Document j ∧ e = AttributeError
        ∧ ∀ fields, j ≠ JObj fields)
  ∨ (∃ fields channels,
       file = Document (JObj fields)
       ∧ get "channels" fields = Some channels
       ∧ truthy channels = true
       ∧ item0 channels = Raise e
       ∧ e ≠ IndexError).
Proof. apply load_config_raises. Qed.

(** X3.  A configuration whose channels are a non-empty list of plain
    strings is migrated: every string becomes an entry with that url and
    [completed] false, in the same order, and the migrated configuration
    is saved. *)
Theorem legacy_channels_are_migrated fields url urls :
  get "channels" fields = Some (JArr (JStr <$> (url :: urls))) →
  ∃ config,
    load_config (Document (JObj fields))
    = Ok (config, Document (JObj config))
    ∧ get "channels" config
      = Some (JArr ((λ u, channel_entry (JStr u)) <$> (url :: urls))).
Proof. apply load_config_migrates. Qed.

Lemma legacy_channels_are_migrated_witness :
  ∃ config,
    load_config (Document (JObj [("channels", JArr [JStr "u1"; JStr "u2"])]))
    = Ok (config, Document (JObj config))
    ∧ get "channels" config
      = Some (JArr [channel_entry (JStr "u1"); channel_entry (JStr "u2")]).
Proof.
  apply (legacy_channels_are_migrated
           [("channels", JArr [JStr "u1"; JStr "u2"])] "u1" ["u2"]).
  reflexivity.
Defined.

(** X4.  Loading is idempotent: after a load that returned, a second
    load returns the same configuration and leaves the file as it is. *)
Theorem load_config_twice file config file' :
  load_config file = Ok (config, file') →
  load_config file' = Ok (config, file').
Proof.
  intros Hload.
  destruct (load_config_returns file config file' Hload)
    as (Hkeys & [channels Hch] & ->).
  pose proof (load_config_settled _ _ _ _ Hload Hch) as Hset.
  unfold load_config.
  assert (read_and_migrate (Document (JObj config)) = Ok (config, false))
    as ->.
  { unfold read_and_migrate. rewrite Hch.
    destruct channels as [|first rest]; [done|]. simpl in *.
    by rewrite Hset. }
  unfold complete. rewrite (fill_defaults_present _ _ _ Hkeys).
  rewrite (Hkeys "channels") by apply list_elem_of_here.
  by rewrite Hch.
Qed.

Lemma load_config_twice_witness :
  load_config (Document (JObj DEFAULT_CONFIG))
  = Ok (DEFAULT_CONFIG, Document (JObj DEFAULT_CONFIG)).
Proof. apply (load_config_twice Absent). reflexivity. Defined.

End ConfigMore.

(** ** The download engine, once more *)

Lemma retry_world_same_data e cfg retries w :
  same_data w
    (if (retries <? max_retries cfg)%Z
     then wait_with_countdown e (retry_delay cfg) w
     else w).
Proof.
  destruct (_ <? _)%Z;
    [apply wait_with_countdown_same_data | apply same_data_refl].
Qed.

Lemma attempts_outcome e cfg id title fuel retries w p :
  let r := attempts e cfg id title fuel retries w p in
  ∃ k,
    (k ≤ fuel `min` Z.to_nat (max_retries cfg - retries))%nat
    ∧ api_calls r.1.2 = api_calls w ++ replicate k id
    ∧ progress_file r.1.2 = progress_file w
    ∧ pdf_dir r.1.2 = pdf_dir w
    ∧ if r.1.1
      then (∃ lines,
              r.2 = add_completed id p
              ∧ transcript_dir r.1.2
                = Some (<[transcript_name id title := Str.join newline lines]>
                          (default ∅ (transcript_dir w))))
           ∨ (∃ reason,
                r.2 = add_failed id reason p
                ∧ transcript_dir r.1.2 = transcript_dir w)
      else r.2 = p ∧ transcript_dir r.1.2 = transcript_dir w.
Proof.
  revert retries w. induction fuel as [|fuel IH]; intros retries w.
  { simpl. exists O. rewrite app_nil_r. repeat split; lia. }
  remember (S fuel `min` Z.to_nat (max_retries cfg - retries))%nat
    as bound eqn:Hbound.
  simpl.
  destruct (Z.ltb_spec retries (max_retries cfg)) as [Hlt|Hge]; simpl;
    [|exists O; rewrite app_nil_r; repeat split; lia].
  destruct (is_running e _); simpl;
    [|exists O; rewrite app_nil_r; repeat split; lia].
  assert (∀ w0 n,
            (n ≤ 1)%nat →
            progress_file w0 = progress_file w → pdf_dir w0 = pdf_dir w →
            transcript_dir w0 = transcript_dir w →
            api_calls w0 = api_calls w ++ replicate n id →
            let w1 := if (retries + 1 <? max_retries cfg)%Z
                      then wait_with_countdown e (retry_delay cfg) w0
                      else w0 in
            let r := attempts e cfg id title fuel (retries + 1) w1 p in
            ∃ k,
              (k ≤ bound)%nat
              ∧ api_calls r.1.2 = api_calls w ++ replicate k id
              ∧ progress_file r.1.2 = progress_file w
              ∧ pdf_dir r.1.2 = pdf_dir w
              ∧ if r.1.1
                then (∃ lines,
                        r.2 = add_completed id p
                        ∧ transcript_dir r.1.2
                          = Some (<[transcript_name id title
                                    := Str.join newline lines]>
                                    (default ∅ (transcript_dir w))))
                     ∨ (∃ reason,
                          r.2 = add_failed id reason p
                          ∧ transcript_dir r.1.2 = transcript_dir w)
                else r.2 = p ∧ transcript_dir r.1.2 = transcript_dir w)
    as Hretry.
  { intros w0 n Hn Hp Hd Ht Ha w1.
    destruct (retry_world_same_data e cfg (retries + 1) w0)
      as (Hp1 & Ht1 & Hd1 & Ha1). fold w1 in Hp1, Ht1, Hd1, Ha1.
    destruct (IH (retries + 1)%Z w1) as (k & Hk & Hcalls & Hp' & Hd' & Hres).
    exists (n + k)%nat. split; [lia|].
    split; [by rewrite Hcalls, Ha1, Ha, <- app_assoc, replicate_add|].
    split; [congruence|]. split; [congruence|].
    rewrite Ht1, Ht in Hres. done. }
  destruct (delay_raises _).
  { apply (Hretry _ O); [lia|done..|by rewrite app_nil_r]. }
  destruct (get_transcript e _ id) as [lines|reason|message]; simpl.
  - exists 1%nat. split; [lia|]. repeat split. left. by exists lines.
  - exists 1%nat. split; [lia|]. repeat split. right. by exists reason.
  - apply (Hretry _ 1%nat); [lia|done..].
Qed.

(** X5.  Whatever the service and the stop button do, one call of
    [download_single_transcript] asks the service at most [max_retries]
    times and only for this video; it leaves the progress file and the
    PDF directory alone; when it returns [False], the progress record and
    the transcript directory are unchanged; when it returns [True],
    either the transcript was written and the id appended to
    [completed_videos], or one entry was appended to [failed_videos] and
    no file was written. *)
Theorem download_single_outcome e cfg id title w p :
  let r := download_single_transcript e cfg id title w p in
  ∃ k,
    (k ≤ Z.to_nat (max_retries cfg))%nat
    ∧ api_calls r.1.2 = api_calls w ++ replicate k id
    ∧ progress_file r.1.2 = progress_file w
    ∧ pdf_dir r.1.2 = pdf_dir w
    ∧ if r.1.1
      then (∃ lines,
              r.2 = add_completed id p
              ∧ transcript_dir r.1.2
                = Some (<[transcript_name id title := Str.join newline lines]>
                          (default ∅ (transcript_dir w))))
           ∨ (∃ reason,
                r.2 = add_failed id reason p
                ∧ transcript_dir r.1.2 = transcript_dir w)
      else r.2 = p ∧ transcript_dir r.1.2 = transcript_dir w.
Proof.
  intros r. subst r. unfold download_single_transcript.
  destruct (attempts_outcome e cfg id title (Z.to_nat (max_retries cfg)) 0 w p)
    as (k & Hk & H). exists k. split; [lia|done].
Qed.

Lemma attempts_eventually e cfg id title lines p :
  (∀ k, is_running e k = true) →
  delay_raises (delay_between_requests cfg) = false →
  ∀ failures fuel retries w,
    (failures < fuel)%nat →
    (retries + Z.of_nat failures < max_retries cfg)%Z →
    (∀ i, (i < failures)%nat →
          ∃ message,
            get_transcript e (length (api_calls w) + i) id
            = OtherError message) →
    get_transcript e (length (api_calls w) + failures) id = Transcript lines →
    let r := attempts e cfg id title fuel retries w p in
    r.1.1 = true
    ∧ r.2 = add_completed id p
    ∧ api_calls r.1.2 = api_calls w ++ replicate (S failures) id
    ∧ transcript_dir r.1.2
      = Some (<[transcript_name id title := Str.join newline lines]>
                (default ∅ (transcript_dir w)))
    ∧ progress_file r.1.2 = progress_file w.
Proof.
  intros Hrun Hdelay.
  induction failures as [|failures IH]; intros fuel retries w Hfuel Hmax
    Hfail Hlast; (destruct fuel as [|fuel]; [lia|]); simpl;
    (destruct (Z.ltb_spec retries (max_retries cfg)); [|lia]);
    rewrite Hrun, Hdelay; simpl.
  - rewrite Nat.add_0_r in Hlast. by rewrite Hlast.
  - destruct (Hfail O) as [message Hfirst]; [lia|].
    rewrite Nat.add_0_r in Hfirst. rewrite Hfirst.
    match goal with
    | |- context [attempts e cfg id title fuel (retries + 1) ?w1 p] =>
        assert (progress_file w1 = progress_file w
                ∧ transcript_dir w1 = transcript_dir w
                ∧ api_calls w1 = api_calls w ++ [id]) as (Hp & Ht & Ha);
        [|destruct (IH fuel (retries + 1)%Z w1) as (H1 & H2 & H3 & H4 & H5)]
    end.
    + match goal with
      | |- context [if ?b then wait_with_countdown e ?s ?w0 else _] =>
          destruct (retry_world_same_data e cfg (retries + 1) w0)
            as (Hp & Ht & _ & Ha)
      end.
      by rewrite Hp, Ht, Ha.
    + lia.
    + lia.
    + intros i Hi. rewrite Ha, length_app. simpl.
      destruct (Hfail (S i)) as [m Hm]; [lia|]. exists m.
      by replace (length (api_calls w) + 1 + i)%nat
        with (length (api_calls w) + S i)%nat by lia.
    + rewrite Ha, length_app. simpl.
      by replace (length (api_calls w) + 1 + failures)%nat
        with (length (api_calls w) + S failures)%nat by lia.
    + simpl in *. rewrite H3, H4, H5, Ha, Ht, Hp, <- app_assoc. done.
Qed.

(** X6.  In a run that is not stopped, a video whose fetch raises
    ordinary errors a number of times smaller than [max_retries] and then
    succeeds is fetched exactly that number of times plus one; the result
    is [True], the transcript file is written under the name of the video
    with its lines joined by line feeds, and the id is appended to
    [completed_videos]. *)
Theorem retry_then_success e cfg id title lines failures w p :
  (∀ k, is_running e k = true) →
  delay_raises (delay_between_requests cfg) = false →
  (Z.of_nat failures < max_retries cfg)%Z →
  (∀ i, (i < failures)%nat →
        ∃ message,
          get_transcript e (length (api_calls w) + i) id
          = OtherError message) →
  get_transcript e (length (api_calls w) + failures) id = Transcript lines →
  let r := download_single_transcript e cfg id title w p in
  r.1.1 = true
  ∧ r.2 = add_completed id p
  ∧ api_calls r.1.2 = api_calls w ++ replicate (S failures) id
  ∧ transcript_dir r.1.2
    = Some (<[transcript_name id title := Str.join newline lines]>
              (default ∅ (transcript_dir w)))
  ∧ progress_file r.1.2 = progress_file w.
Proof.
  intros Hrun Hdelay Hmax Hfail Hlast.
  apply attempts_eventually; try done; lia.
Qed.

Lemma retry_then_success_witness :
  let service := λ (n : nat) (_ : string),
    if (n <? 2)%nat then OtherError "timed out" else Transcript ["a"; "b"] in
  let r := download_single_transcript (calm service) default_settings
             "dQw4w9WgXcQ" "A title" empty_world empty_progress in
  r.1.1 = true
  ∧ completed_videos r.2 = Some ["dQw4w9WgXcQ"]
  ∧ api_calls r.1.2 = ["dQw4w9WgXcQ"; "dQw4w9WgXcQ"; "dQw4w9WgXcQ"].
Proof.
  intros service r.
  destruct (retry_then_success (calm service) default_settings "dQw4w9WgXcQ"
              "A title" ["a"; "b"] 2 empty_world empty_progress)
    as (H1 & H2 & H3 & _).
  - reflexivity.
  - reflexivity.
  - simpl. lia.
  - intros i Hi. exists "timed out". simpl.
    destruct i as [|[|i]]; [reflexivity..|lia].
  - reflexivity.
  - split; [exact H1|]. split; [|exact H3].
    fold r in H2. rewrite H2. reflexivity.
Defined.

(** ** A pass over a channel, once more *)

Lemma recorded_keeps_completed id p p' x :
  recorded id p p' →
  x ∈ default [] (completed_videos p) →
  x ∈ default [] (completed_videos p').
Proof.
  intros [| |reason] Hx; [done| |done]. simpl. apply elem_of_app. by left.
Qed.

Lemma download_all_stopped e cfg videos i w p :
  let r := download_all e cfg i videos w p in
  (r.1.1 = false → progress_file r.1.2 = Some r.2)
  ∧ ∀ x, x ∈ default [] (completed_videos p) →
         x ∈ default [] (completed_videos r.2).
Proof.
  revert i w p. induction videos as [|v videos IH]; intros i w p; simpl;
    [done|].
  destruct (is_running e _); simpl; [|done].
  match goal with
  | |- context [download_single_transcript e cfg ?id ?title ?w0 p] =>
      destruct (download_single_effect e cfg id title w0 p)
        as (Hrec & _);
      destruct (download_single_transcript e cfg id title w0 p)
        as [[ok w1] p1]
  end.
  simpl in Hrec.
  match goal with
  | |- context [download_all e cfg (S i) videos ?w2 p1] =>
      destruct (IH (S i) w2 p1) as [Hstop Hkeep]
  end.
  split; [done|]. intros x Hx. apply Hkeep.
  by apply (recorded_keeps_completed _ _ _ _ Hrec).
Qed.

(** X7.  When the stop button ends the download loop of a pass, the
    progress file is written before the pass returns, and it records as
    completed every video that the earlier progress file or the directory
    scan had as completed. *)
Theorem stopped_pass_saves_progress e cfg videos w p :
  let r := download_phase e cfg videos w p in
  r.1 = false →
  ∃ p', progress_file r.2 = Some p'
        ∧ ∀ id, id ∈ default [] (completed_videos p)
                ∨ id ∈ get_existing_transcripts (transcript_dir w) →
                id ∈ default [] (completed_videos p').
Proof.
  intros r. subst r. unfold download_phase.
  set (p0 := reconcile p (get_existing_transcripts (transcript_dir w))).
  destruct (remaining_videos p0 videos) as [|v0 rest] eqn:E; [done|].
  rewrite <- E. clear E.
  destruct (download_all_stopped e cfg (remaining_videos p0 videos) 0 w p0)
    as [Hstop Hkeep].
  destruct (download_all e cfg 0 (remaining_videos p0 videos) w p0)
    as [[finished w1] p1].
  simpl in *. intros ->. exists p1. split; [by apply Hstop|].
  intros id Hid. apply Hkeep. by apply elem_of_reconciled.
Qed.

Lemma stopped_pass_saves_progress_witness :
  let e := Env (λ _, false) (λ _, O) (λ _ _, OtherError "") None None false in
  let p := add_completed "aaaaaaaaaaa" empty_progress in
  let r := download_phase e default_settings
             [VideoInfo "dQw4w9WgXcQ" "A title"] empty_world p in
  ∃ p', progress_file r.2 = Some p'
        ∧ "aaaaaaaaaaa" ∈ default [] (completed_videos p').
Proof.
  intros e p r.
  destruct (stopped_pass_saves_progress e default_settings
              [VideoInfo "dQw4w9WgXcQ" "A title"] empty_world p)
    as (p' & Hfile & Hkeep); [reflexivity|].
  exists p'. split; [exact Hfile|]. apply Hkeep. left.
  apply list_elem_of_here.
Defined.

(** X8.  A pass over a channel for which no videos were found returns
    at once: it reports that the run was stopped or that no videos were
    found, it writes no file and it does not call the service. *)
Theorem pass_without_videos e cfg url name w :
  let r := process_channel e cfg url name [] w in
  (r.1 = if is_running e (running_reads w) then NoVideosFound else Stopped)
  ∧ progress_file r.2 = progress_file w
  ∧ transcript_dir r.2 = transcript_dir w
  ∧ pdf_dir r.2 = pdf_dir w
  ∧ api_calls r.2 = api_calls w.
Proof.
  intros r. subst r. unfold process_channel. simpl.
  by destruct (is_running e (running_reads w)).
Qed.

Lemma perform_cleanup_true e w w' :
  perform_cleanup e w = (true, w') →
  transcript_dir w' = None
  ∧ progress_file w' = None
  ∧ ∃ folder, pdf_dir w' = Some folder
              ∧ archive folder = Some (Zip (archive_members w) true).
Proof.
  unfold perform_cleanup.
  pose proof (write_archive_complete e w) as Hzip.
  destruct (write_archive e w) as [w1 ok1]. destruct ok1; simpl; [|done].
  destruct (Hzip w1 eq_refl) as (folder & Hfolder & Harchive).
  destruct (rmtree_frame e w1) as (_ & Hd2 & _).
  assert ((rmtree e w1).2 = true → transcript_dir (rmtree e w1).1 = None)
    as Ht2.
  { unfold rmtree. destruct (transcript_dir w1) eqn:E; [|done].
    by destruct (rmtree_fault e). }
  destruct (rmtree e w1) as [w2 ok2]. destruct ok2; simpl in *; [|done].
  destruct (remove_progress_frame e w2) as (Ht3 & Hd3 & _).
  assert ((remove_progress e w2).2 = true →
          progress_file (remove_progress e w2).1 = None) as Hp3.
  { unfold remove_progress. destruct (progress_file w2) eqn:E; [|done].
    by destruct (remove_fault e). }
  destruct (remove_progress e w2) as [w3 ok3]. destruct ok3; simpl in *;
    [|done].
  intros [= <-]. split; [by rewrite Ht3, Ht2|]. split; [by apply Hp3|].
  exists folder. by rewrite Hd3, Hd2.
Qed.

(** X9.  A pass reports a channel as completely processed only when
    the transcript directory and the progress file are gone and the PDF
    directory holds a complete archive. *)
Theorem processed_channel_is_archived e cfg url name videos w w' :
  process_channel e cfg url name videos w = (Processed true, w') →
  transcript_dir w' = None
  ∧ progress_file w' = None
  ∧ ∃ folder members,
      pdf_dir w' = Some folder
      ∧ archive folder = Some (Zip members true).
Proof.
  unfold process_channel. simpl.
  destruct (is_running e _); simpl; [|done].
  destruct videos as [|v0 rest] eqn:E; [done|]. rewrite <- E. clear E.
  destruct (download_phase e cfg videos _ _) as [finished w1].
  destruct finished; simpl; [|done].
  destruct (is_running e _); simpl; [|done].
  match goal with
  | |- context [perform_cleanup e ?w2] =>
      pose proof (perform_cleanup_true e w2) as Hclean;
      destruct (perform_cleanup e w2) as [clean w3]
  end.
  intros [= -> <-].
  destruct (Hclean w3 eq_refl) as (H1 & H2 & folder & H3 & H4).
  split; [done|]. split; [done|]. eauto.
Qed.

Lemma processed_channel_is_archived_witness :
  let service := λ (_ : nat) (_ : string), Transcript ["never gonna"] in
  let r := process_channel (calm service) default_settings
             "https://www.youtube.com/@rick" "rick"
             [VideoInfo "dQw4w9WgXcQ" "Never Gonna Give You Up"] empty_world in
  transcript_dir r.2 = None ∧ progress_file r.2 = None.
Proof.
  intros service r.
  destruct (processed_channel_is_archived (calm service) default_settings
              "https://www.youtube.com/@rick" "rick"
              [VideoInfo "dQw4w9WgXcQ" "Never Gonna Give You Up"]
              empty_world r.2) as (H1 & H2 & _).
  - vm_compute. reflexivity.
  - exact (conj H1 H2).
Defined.

(** X10.  During a pass the service is asked only for videos of the
    channel listing that the progress file does not record as completed
    and that the directory scan does not find. *)
Theorem pass_fetches_only_missing e cfg url name videos w :
  let r := process_channel e cfg url name videos w in
  ∃ fetched,
    api_calls r.2 = api_calls w ++ fetched
    ∧ ∀ id, id ∈ fetched →
        id ∈ video_id <$> videos
        ∧ (id ∉ default [] (completed_videos (load_progress w)))
        ∧ (id ∉ get_existing_transcripts (transcript_dir w)).
Proof. apply process_channel_calls. Qed.

(** X11.  Round trip of the file name: the transcript file that
    [save_transcript] writes for a video whose id is eleven word
    characters is found by the directory scan, whatever the title. *)
Theorem saved_transcript_is_found id title lines w :
  Str.ascii_text id = true → Str.ascii_text title = true →
  String.length id = 11%nat → Str.all_chars Str.is_word id = true →
  search_id (transcript_name id title) = Some id
  ∧ id ∈ get_existing_transcripts
           (transcript_dir (save_transcript id title lines w)).
Proof.
  intros _ _ Hlen Hword.
  assert (search_id (transcript_name id title) = Some id) as Hname.
  { destruct (transcript_name_shape id title) as [pre ->].
    by apply search_id_complete. }
  split; [done|]. apply elem_of_existing_transcripts.
  destruct (save_transcript_file id title lines w) as (files & Hdir & Hfile).
  exists files, (transcript_name id title). by repeat split.
Qed.

Lemma saved_transcript_is_found_witness :
  search_id "What? (dQw4w9WgXcQ).txt" = Some "dQw4w9WgXcQ".
Proof.
  apply (saved_transcript_is_found "dQw4w9WgXcQ" "What?" [] empty_world);
    reflexivity.
Defined.

(** X12.  A video whose transcript file is in the transcript directory
    and whose id is eleven word characters is never fetched during a
    pass, with or without a progress file. *)
Theorem transcript_on_disk_is_skipped e cfg url name videos w files id title :
  Str.ascii_text id = true → Str.ascii_text title = true →
  transcript_dir w = Some files →
  is_Some (files !! transcript_name id title) →
  String.length id = 11%nat → Str.all_chars Str.is_word id = true →
  ∃ fetched,
    api_calls (process_channel e cfg url name videos w).2
    = api_calls w ++ fetched
    ∧ id ∉ fetched.
Proof.
  intros _ _ Hdir Hfile Hlen Hword.
  by destruct (word_id_is_skipped e cfg url name videos w files id title
                 Hdir Hfile Hlen Hword) as [_ ?].
Qed.

Lemma transcript_on_disk_is_skipped_witness :
  let service := λ (_ : nat) (_ : string), Transcript ["never gonna"] in
  let w := save_transcript "dQw4w9WgXcQ" "A title" ["text"] empty_world in
  ∃ fetched,
    api_calls (process_channel (calm service) default_settings
                 "https://www.youtube.com/@rick" "rick"
                 [VideoInfo "dQw4w9WgXcQ" "A title"] w).2
    = api_calls w ++ fetched
    ∧ "dQw4w9WgXcQ" ∉ fetched.
Proof.
  intros service w.
  apply (transcript_on_disk_is_skipped (calm service) default_settings
           "https://www.youtube.com/@rick" "rick"
           [VideoInfo "dQw4w9WgXcQ" "A title"] w
           {[ transcript_name "dQw4w9WgXcQ" "A title" := "text" ]}
           "dQw4w9WgXcQ" "A title"); try reflexivity.
  exists "text". apply lookup_insert_eq.
Defined.

(** ** The scan and the reconciliation, once more *)

Lemma match_here_exact_lf g tail :
  tail = ").txt" +:+ newline →
  String.length g = 11%nat → Str.all_chars Str.is_word g = true →
  match_here (String "(" (g +:+ tail)) = Some g.
Proof.
  intros Htail Hlen Hword.
  pose proof (take_app_length g tail) as Htake.
  pose proof (drop_app_length g tail) as Hdrop.
  rewrite Hlen in Htake, Hdrop.
  unfold match_here. rewrite Htake, Hdrop, Hlen, Hword.
  assert (String.eqb tail (").txt" +:+ newline) = true) as ->
    by (by apply String.eqb_eq).
  by rewrite orb_true_r.
Qed.

Lemma search_id_complete_lf pre g tail :
  tail = ").txt" +:+ newline →
  String.length g = 11%nat → Str.all_chars Str.is_word g = true →
  search_id (pre +:+ String "(" (g +:+ tail)) = Some g.
Proof.
  intros Htail Hlen Hword. induction pre as [|c pre IH].
  - cbn [String.append search_id]. by rewrite match_here_exact_lf.
  - cbn [String.append search_id].
    destruct (match_here _) as [g'|] eqn:E; [exfalso|apply IH].
    apply match_here_spec in E as (tail' & Heq & Htail' & Hlen' & _).
    cbn [String.append] in Heq. injection Heq as -> Heq.
    apply (f_equal String.length) in Heq.
    rewrite !length_append in Heq. cbn [String.length] in Heq.
    rewrite !length_append in Heq.
    destruct Htail' as [->| ->]; subst tail; simpl in Heq; lia.
Qed.

(** X13.  The regular expression of the directory scan: a file name is
    matched, with the group [g], exactly when it ends with an opening
    parenthesis, the eleven word characters [g], a closing parenthesis and
    [.txt], or with all that followed by one line feed (Python's [$]). *)
Theorem search_id_matches f g :
  Str.ascii_text f = true →
  (search_id f = Some g ↔
   String.length g = 11%nat
   ∧ Str.all_chars Str.is_word g = true
   ∧ ∃ pre, f = pre +:+ "(" +:+ g +:+ ").txt"
            ∨ f = pre +:+ "(" +:+ g +:+ ").txt" +:+ newline).
Proof.
  intros _. split.
  - intros (pre & tail & -> & [->| ->] & Hlen & Hword)%search_id_spec;
      (split; [done|]; split; [done|]; exists pre; auto).
  - intros (Hlen & Hword & pre & [->| ->]);
      [by apply search_id_complete | by apply (search_id_complete_lf pre g)].
Qed.

Lemma search_id_matches_witness :
  search_id "A title (dQw4w9WgXcQ).txt" = Some "dQw4w9WgXcQ".
Proof.
  apply (search_id_matches "A title (dQw4w9WgXcQ).txt" "dQw4w9WgXcQ" eq_refl).
  split; [reflexivity|]. split; [reflexivity|]. exists "A title ". by left.
Defined.

(** X14.  The reconciliation of line 181 gives a completed list without
    duplicates that holds exactly the recorded and the scanned ids, and
    leaves the rest of the progress record as it is. *)
Theorem reconcile_is_a_union p existing :
  NoDup (default [] (completed_videos (reconcile p existing)))
  ∧ (∀ id, id ∈ default [] (completed_videos (reconcile p existing)) ↔
           id ∈ default [] (completed_videos p) ∨ id ∈ existing)
  ∧ failed_videos (reconcile p existing) = failed_videos p
  ∧ channel_url (reconcile p existing) = channel_url p.
Proof.
  split; [apply NoDup_elements|]. split; [|done].
  intros id. apply elem_of_reconciled.
Qed.

(** ** The archiver, once more *)

(** X15.  A cleanup that fails never removes the progress file: the
    progress file is removed last, after the archive was written and the
    transcript directory removed. *)
Theorem failed_cleanup_keeps_progress_file e w :
  let r := perform_cleanup e w in
  r.1 = false → progress_file r.2 = progress_file w.
Proof.
  intros r. subst r. unfold perform_cleanup.
  destruct (write_archive_frame e w) as (_ & Hp1 & _).
  destruct (write_archive e w) as [w1 ok1]. simpl in Hp1.
  destruct ok1; simpl; [|done].
  destruct (rmtree_frame e w1) as (Hp2 & _ & _).
  destruct (rmtree e w1) as [w2 ok2]. simpl in Hp2.
  destruct ok2; simpl; [|congruence].
  assert ((remove_progress e w2).2 = false →
          progress_file (remove_progress e w2).1 = progress_file w2) as Hp3.
  { unfold remove_progress. destruct (progress_file w2) eqn:E; [|done].
    by destruct (remove_fault e). }
  destruct (remove_progress e w2) as [w3 ok3]. simpl in Hp3.
  destruct ok3; simpl; [done|]. intros _. rewrite Hp3 by done. congruence.
Qed.

Lemma failed_cleanup_keeps_progress_file_witness :
  let e := Env (λ _, true) (λ _, O) (λ _ _, OtherError "") None
             (Some 0%nat) false in
  let w := World (Some empty_progress)
             (Some {[ "A title (dQw4w9WgXcQ).txt" := "text" ]})
             (Some empty_folder) [] 0 in
  progress_file (perform_cleanup e w).2 = Some empty_progress.
Proof.
  intros e w. apply (failed_cleanup_keeps_progress_file e w). reflexivity.
Defined.

(** ** The paginator, once more *)

(** X16.  The files that the paginator reads are exactly the files of
    the transcript directory whose name ends in [.txt] and does not start
    with a full stop, each once, in the order of their names; without a
    transcript directory there are none. *)
Theorem txt_files_are_sorted_listing folder :
  Sorted name_le (txt_files folder)
  ∧ NoDup (txt_files folder)
  ∧ (∀ name content,
       (name, content) ∈ txt_files folder ↔
       ∃ files, folder = Some files
                ∧ files !! name = Some content ∧ glob_txt name = true).
Proof.
  split; [apply txt_files_sorted|]. destruct folder as [files|].
  - split.
    + simpl. rewrite merge_sort_Permutation. apply NoDup_filter.
      apply NoDup_map_to_list.
    + intros name content. rewrite txt_files_listing. split.
      * intros [? ?]. by exists files.
      * by intros (? & [= <-] & ? & ?).
  - split; [constructor|]. intros name content. split.
    + by intros ?%not_elem_of_nil.
    + by intros (? & ? & _).
Qed.

Lemma numbered_numbers name k groups :
  (numbered name k groups).*1 = seq k (length groups).
Proof.
  revert k. induction groups as [|g groups IH]; intros k; simpl; [done|].
  by rewrite IH.
Qed.

Lemma write_pdfs_lookup docs folder :
  NoDup docs.*1 →
  (∀ d, d ∈ docs → pdfs (write_pdfs docs folder) !! d.1 = Some d.2)
  ∧ (∀ n, n ∉ docs.*1 →
          pdfs (write_pdfs docs folder) !! n = pdfs folder !! n)
  ∧ archive (write_pdfs docs folder) = archive folder.
Proof.
  unfold write_pdfs. simpl. generalize (pdfs folder) as m.
  induction docs as [|[k story] docs IH]; intros m Hnodup; simpl.
  { split; [by intros d ?%not_elem_of_nil | done]. }
  apply NoDup_cons in Hnodup as [Hk Hnodup].
  destruct (IH (<[k := story]> m) Hnodup) as (Hin & Hout & _).
  split; [|split; [|done]].
  - intros d [->|Hd]%elem_of_cons; [|by apply Hin].
    simpl. rewrite Hout by done. apply lookup_insert_eq.
  - intros n Hn. apply not_elem_of_cons in Hn as [Hne Hn].
    rewrite Hout by done. by apply lookup_insert_ne.
Qed.

(** X17.  [create_pdfs_from_transcripts] returns [True]; it numbers the
    documents from 1 without gaps, builds no more documents than there
    are transcript files, writes each document under its number, keeps
    the archive and every PDF with a higher number that an earlier run
    left in the directory, and touches neither the transcript directory
    nor the progress file. *)
Theorem create_pdfs_writes_numbered_documents cfg name w :
  let docs := paginate cfg name (txt_files (transcript_dir w)) in
  let r := create_pdfs_from_transcripts cfg name w in
  r.1 = true
  ∧ docs.*1 = seq 1 (length docs)
  ∧ (length docs ≤ length (txt_files (transcript_dir w)))%nat
  ∧ transcript_dir r.2 = transcript_dir w
  ∧ progress_file r.2 = progress_file w
  ∧ ∃ folder,
      pdf_dir r.2 = Some folder
      ∧ (∀ d, d ∈ docs → pdfs folder !! d.1 = Some d.2)
      ∧ (∀ n, (length docs < n)%nat →
              pdfs folder !! n
              = pdfs (default empty_folder (pdf_dir w)) !! n)
      ∧ archive folder = archive (default empty_folder (pdf_dir w)).
Proof.
  intros docs r. subst r.
  destruct (paginate_groups cfg name (txt_files (transcript_dir w)))
    as (groups & Hdocs & Hconcat & Hgroups & _). fold docs in Hdocs.
  assert (docs.*1 = seq 1 (length docs)) as Hnum.
  { rewrite Hdocs, numbered_numbers. f_equal.
    by rewrite <- (length_fmap fst), numbered_numbers, length_seq. }
  assert (length docs = length groups) as Hlen
    by (by rewrite Hdocs, <- (length_fmap fst), numbered_numbers, length_seq).
  split; [done|]. split; [done|]. split.
  { rewrite Hlen, <- Hconcat. clear -Hgroups.
    induction Hgroups as [|g groups [Hg _] _ IH]; simpl; [done|].
    rewrite length_app. destruct g; [done|]. simpl. lia. }
  split; [done|]. split; [done|].
  destruct (write_pdfs_lookup docs (default empty_folder (pdf_dir w)))
    as (Hin & Hout & Harch).
  { rewrite Hnum. apply NoDup_seq. }
  eexists. split; [done|]. split; [done|]. split; [|done].
  intros n Hn. apply Hout. rewrite Hnum, elem_of_seq. lia.
Qed.

Lemma foldl_add_file_fits cfg name files :
  ∀ seen st,
    built st = [] → pdf_number st = 1%nat →
    story st = render name 1 seen →
    word_count st = group_words seen →
    files_in_pdf st = length seen →
    (Z.of_nat (group_words (seen ++ files)) ≤ max_words_per_pdf cfg)%Z →
    let st' := foldl (add_file cfg name) st files in
    built st' = [] ∧ pdf_number st' = 1%nat
    ∧ story st' = render name 1 (seen ++ files)
    ∧ files_in_pdf st' = length (seen ++ files).
Proof.
  induction files as [|file files IH]; intros seen st Hb Hn Hs Hw Hf Hmax.
  { simpl. by rewrite app_nil_r. }
  simpl. replace (seen ++ file :: files) with ((seen ++ [file]) ++ files)
    in * by (by rewrite <- app_assoc).
  assert (overflows cfg st (file_words file) = false) as Hover.
  { apply not_true_iff_false. intros [Hlt _]%overflows_spec.
    unfold group_words in Hmax. rewrite !sum_list_with_app in Hmax.
    simpl in Hmax. unfold group_words in Hw. lia. }
  destruct (add_file_fits cfg name st file Hover) as (H1 & H2 & H3 & H4 & H5).
  apply IH; simpl in *.
  - congruence.
  - congruence.
  - by rewrite H3, Hs, render_snoc.
  - by rewrite H4, Hw, group_words_snoc.
  - rewrite H5, Hf, length_app. simpl. lia.
  - done.
Qed.

(** X18.  When all the transcript files together are within the word
    budget, the paginator builds one document that holds all of them, in
    their order. *)
Theorem pagination_within_budget cfg name files :
  files ≠ [] →
  (Z.of_nat (group_words files) ≤ max_words_per_pdf cfg)%Z →
  paginate cfg name files = [(1%nat, render name 1 files)].
Proof.
  intros Hne Hmax.
  destruct (foldl_add_file_fits cfg name files [] (start name))
    as (H1 & H2 & H3 & H4); try done.
  unfold paginate. destruct files as [|file rest] eqn:E; [done|].
  rewrite <- E in *. simpl in H1, H2, H3, H4. cbv zeta.
  rewrite H4, H1, H2, H3.
  assert ((0 <? length files)%nat = true) as ->; [|done].
  rewrite E. done.
Qed.

Lemma pagination_within_budget_witness :
  let files := [words_file "a.txt" 2; words_file "b.txt" 3] in
  paginate (Cfg 3 (Seconds 6) 30 5) "channel" files
  = [(1%nat, render "channel" 1 files)].
Proof.
  intros files. apply pagination_within_budget; [done|].
  vm_compute. discriminate.
Defined.

(** ** The channel name, once more *)

(** X19.  The name of a channel does not depend on slashes at the end
    of its URL. *)
Theorem channel_name_ignores_trailing_slashes url slashes :
  Str.ascii_text url = true →
  Str.all_chars (Ascii.eqb "/") slashes = true →
  extract_channel_name (url +:+ slashes) = extract_channel_name url.
Proof.
  intros _ Hslashes. unfold extract_channel_name, Str.rstrip_slash.
  by rewrite rstrip_by_app, Hslashes.
Qed.

Lemma channel_name_ignores_trailing_slashes_witness :
  extract_channel_name ("https://www.youtube.com/@drekberg" +:+ "//")
  = extract_channel_name "https://www.youtube.com/@drekberg".
Proof.
  apply channel_name_ignores_trailing_slashes; reflexivity.
Defined.

(** ** The run over all channels *)

Lemma run_channels_reports e cfg videos_of channels :
  ∀ i done d reported d',
    run_channels e cfg videos_of i channels done d = Ok (reported, d') →
    ∃ more, reported = done ++ more ∧ sublist more (uncompleted channels).
Proof.
  induction channels as [|c channels IH]; intros i done d reported d'.
  { intros [= <- <-]. exists []. by rewrite app_nil_r. }
  cbn [run_channels read_running]. destruct (is_running e _); simpl.
  2:{ intros [= <- <-]. exists []. rewrite app_nil_r. split; [done|].
      apply sublist_nil_l. }
  unfold uncompleted. cbn [omap list_omap].
  destruct (channel_of c) as [[url [|]]|x]; [| |done].
  - intros (more & -> & Hmore)%IH. by exists more.
  - destruct (process_channel _ _ _ _ _ _) as [r w].
    intros (more & -> & Hmore)%IH.
    destruct r as [| |[|]];
      try (exists more; split; [done|]; by apply sublist_cons).
    exists (url :: more). rewrite <- app_assoc. split; [done|].
    by apply sublist_skip.
Qed.

(** X20.  [run] passes to the completion callback only URLs of entries
    that are not marked completed, in the order of the channel list and
    at most once for each entry. *)
Theorem run_reports_uncompleted_channels e cfg videos_of channels d
    reported d' :
  run e cfg videos_of channels d = Ok (reported, d') →
  sublist reported (uncompleted channels).
Proof.
  intros (more & -> & Hmore)%run_channels_reports. done.
Qed.

Lemma run_reports_uncompleted_channels_witness :
  sublist ["https://www.youtube.com/@a"]
    (uncompleted
       [Config.JObj [("url", Config.JStr "https://www.youtube.com/@b");
                     ("completed", Config.JBool true)];
        Config.JObj [("url", Config.JStr "https://www.youtube.com/@a");
                     ("completed", Config.JBool false)]]).
Proof.
  assert (∃ d',
    run (calm (λ _ _, Transcript ["hello"])) default_settings
      (λ _ _, [VideoInfo "dQw4w9WgXcQ" "A title"])
      [Config.JObj [("url", Config.JStr "https://www.youtube.com/@b");
                    ("completed", Config.JBool true)];
       Config.JObj [("url", Config.JStr "https://www.youtube.com/@a");
                    ("completed", Config.JBool false)]]
      (Disk ∅ ∅ ∅ [] 0)
    = Ok (["https://www.youtube.com/@a"], d')) as [d' Hrun].
  { vm_compute. eexists. reflexivity. }
  exact (run_reports_uncompleted_channels _ _ _ _ _ _ _ Hrun).
Defined.

(** X21.  When every entry of the channel list is marked completed,
    [run] processes nothing: it reports no channel, calls the transcript
    service for no video and leaves every file as it is. *)
Theorem run_skips_completed_channels e cfg videos_of channels d :
  Forall (λ c, ∃ url, channel_of c = Ok (url, true)) channels →
  ∃ n, run e cfg videos_of channels d
       = Ok ([], Disk (progress_files d) (transcript_dirs d) (pdf_dirs d)
                      (calls d) n).
Proof.
  unfold run. generalize 0%nat at 1 as i. intros i Hall. revert i d.
  induction Hall as [|c channels [url Hc] _ IH]; intros i d.
  { exists (reads d). by destruct d. }
  cbn [run_channels read_running]. destruct (is_running e _); simpl.
  2:{ by eexists. }
  rewrite Hc.
  destruct (IH (S i)
    (with_counters
       (check_pause e (set_running_reads (S (reads d)) (counters d))) d))
    as [n Hn].
  exists n. by rewrite Hn.
Qed.

Lemma run_skips_completed_channels_witness :
  ∃ n, run (calm (λ _ _, Transcript ["hello"])) default_settings
         (λ _ _, [VideoInfo "dQw4w9WgXcQ" "A title"])
         [Config.JObj [("url", Config.JStr "https://www.youtube.com/@b");
                       ("completed", Config.JBool true)]]
         (Disk ∅ ∅ ∅ [] 0)
       = Ok ([], Disk ∅ ∅ ∅ [] n).
Proof.
  apply (run_skips_completed_channels _ _ _ _ (Disk ∅ ∅ ∅ [] 0)).
  constructor; [|constructor]. by eexists.
Defined.

(** X22.  In a run that is not stopped, an entry of the channel list
    that is no dict, or whose URL is no str, makes [run] raise
    [AttributeError]: the name of a channel is computed outside the
    [try] of the loop and before the completion mark is looked at, so
    even an entry that is marked completed does this. *)
Theorem run_raises_on_malformed_entry e cfg videos_of channels d :
  (∀ n, is_running e n = true) →
  Exists (λ c, channel_of c = Raise AttributeError) channels →
  run e cfg videos_of channels d = Raise AttributeError.
Proof.
  intros Hrun. unfold run. generalize 0%nat at 1 as i.
  generalize (@nil string) as done. intros done i Hbad. revert done i d.
  induction channels as [|c channels IH]; intros done i d.
  { by apply Exists_nil in Hbad. }
  cbn [run_channels read_running]. rewrite Hrun. simpl.
  destruct (channel_of c) as [[url completed]|x] eqn:Hc.
  - apply Exists_cons in Hbad as [Hbad|Hbad]; [congruence|].
    destruct completed; [by apply IH|].
    destruct (process_channel _ _ _ _ _ _) as [r w]. by apply IH.
  - unfold channel_of in Hc. destruct c as [| | | | |fields]; try congruence.
    destruct (Config.get "url" fields) as [[]|]; congruence.
Qed.

Lemma run_raises_on_malformed_entry_witness :
  run (calm (λ _ _, Transcript ["hello"])) default_settings
    (λ _ _, [])
    [Config.JObj [("completed", Config.JBool true)]]
    (Disk ∅ ∅ ∅ [] 0)
  = Raise AttributeError.
Proof.
  apply run_raises_on_malformed_entry; [done|].
  apply Exists_cons. by left.
Defined.

(** ** The channel list of the window *)

Lemma replace_go_skip old new a s :
  replace_go old new (String.length a) (a +:+ s) = replace_go old new 0 s.
Proof.
  induction a as [|c a IH]; simpl; [by destruct s | done].
Qed.

Lemma replace_marked c old new s :
  replace (String c old) new (String c old +:+ s)
  = new +:+ replace (String c old) new s.
Proof.
  unfold replace. cbn [String.append replace_go].
  assert (String.prefix (String c old) (String c (old +:+ s)) = true) as ->.
  { apply prefix_app. by exists s. }
  assert (String.length (String c old) - 1 = String.length old)%nat as ->
    by (simpl; lia).
  by rewrite replace_go_skip.
Qed.

Lemma not_contains_prefix key s :
  Str.contains key s = false → String.prefix key s = false.
Proof. destruct s; simpl; by intros [? ?]%orb_false_elim. Qed.

Lemma replace_clean c old new s :
  Str.contains (String c old) s = false → replace (String c old) new s = s.
Proof.
  unfold replace. induction s as [|a s IH]; [done|].
  intros Hs. cbn [replace_go]. rewrite (not_contains_prefix _ _ Hs).
  rewrite contains_cons in Hs. apply orb_false_elim in Hs as [_ Hs].
  by rewrite IH.
Qed.

Lemma remove_prefix_clean s :
  Str.contains COMPLETED_PREFIX s = false →
  replace COMPLETED_PREFIX "" s = s.
Proof. apply replace_clean. Qed.

Lemma remove_prefix_marked s :
  replace COMPLETED_PREFIX "" (COMPLETED_PREFIX +:+ s)
  = replace COMPLETED_PREFIX "" s.
Proof. apply (replace_marked _ _ ""). Qed.

Lemma prefix_marked s :
  String.prefix COMPLETED_PREFIX (COMPLETED_PREFIX +:+ s) = true.
Proof. apply prefix_app. by exists s. Qed.

Lemma channel_of_display_text url is_completed :
  Str.contains COMPLETED_PREFIX url = false →
  channel_of_text (display_text url is_completed) = (url, is_completed).
Proof.
  intros Hclean. unfold channel_of_text, display_text.
  destruct is_completed.
  - by rewrite prefix_marked, remove_prefix_marked, remove_prefix_clean.
  - by rewrite not_contains_prefix.
Qed.

(** X23.  The channel list survives the way through the window: when no
    URL contains the completion prefix, the channels that
    [save_config_from_ui] reads from the list box are those that
    [load_config_to_ui] put there, with their completion marks. *)
Theorem channel_list_round_trip channels :
  Forall (λ c, Str.contains COMPLETED_PREFIX c.1 = false) channels →
  channels_from_ui (load_channels_to_ui channels) = channels.
Proof.
  unfold channels_from_ui, load_channels_to_ui.
  induction 1 as [|[url is_completed] channels Hclean _ IH]; [done|].
  cbn [fmap list_fmap] in *. rewrite IH.
  by rewrite channel_of_display_text.
Qed.

Lemma channel_list_round_trip_witness :
  channels_from_ui
    (load_channels_to_ui
       [("https://www.youtube.com/@a", true);
        ("https://www.youtube.com/@b", false)])
  = [("https://www.youtube.com/@a", true);
     ("https://www.youtube.com/@b", false)].
Proof.
  apply channel_list_round_trip. repeat constructor.
Defined.

Lemma mark_skips url pre rest :
  Forall (λ c, Str.contains COMPLETED_PREFIX c.1 = false) pre →
  (url, false) ∉ pre →
  mark_channel_as_completed url (load_channels_to_ui pre ++ rest)
  = load_channels_to_ui pre ++ mark_channel_as_completed url rest.
Proof.
  unfold load_channels_to_ui.
  induction 1 as [|[u c] pre Hclean _ IH]; [done|].
  intros [Hne Hpre]%not_elem_of_cons.
  cbn [fmap list_fmap app mark_channel_as_completed]. cbn [fst] in Hclean.
  destruct c; cbn [display_text fst snd].
  - rewrite prefix_marked, andb_false_r. f_equal. by apply IH.
  - rewrite remove_prefix_clean by done.
    destruct (String.eqb u url) eqn:E; [apply String.eqb_eq in E; congruence|].
    cbn [andb]. f_equal. by apply IH.
Qed.

(** X24.  [mark_channel_as_completed] marks the first entry of the list
    box that names the channel and is not marked yet, and changes nothing
    else; without such an entry the list box stays as it is. *)
Theorem mark_completes_first_unmarked url channels :
  Forall (λ c, Str.contains COMPLETED_PREFIX c.1 = false) channels →
  (∀ pre post,
     channels = pre ++ (url, false) :: post → (url, false) ∉ pre →
     mark_channel_as_completed url (load_channels_to_ui channels)
     = load_channels_to_ui (pre ++ (url, true) :: post))
  ∧ ((url, false) ∉ channels →
     mark_channel_as_completed url (load_channels_to_ui channels)
     = load_channels_to_ui channels).
Proof.
  intros Hclean. split.
  - intros pre post -> Hpre.
    apply Forall_app in Hclean as [Hclean_pre Hclean_post].
    apply Forall_cons in Hclean_post as [Hurl _]. simpl in Hurl.
    unfold load_channels_to_ui at 1 2. rewrite !fmap_app.
    rewrite (mark_skips url pre _ Hclean_pre Hpre). f_equal.
    cbn [fmap list_fmap mark_channel_as_completed display_text fst snd].
    rewrite remove_prefix_clean by done. rewrite String.eqb_refl.
    by rewrite not_contains_prefix.
  - intros Hnot.
    pose proof (mark_skips url channels [] Hclean Hnot) as H.
    by rewrite !app_nil_r in H.
Qed.

Lemma mark_completes_first_unmarked_witness :
  mark_channel_as_completed "https://www.youtube.com/@b"
    (load_channels_to_ui
       [("https://www.youtube.com/@a", true);
        ("https://www.youtube.com/@b", false);
        ("https://www.youtube.com/@b", false)])
  = load_channels_to_ui
      [("https://www.youtube.com/@a", true);
       ("https://www.youtube.com/@b", true);
       ("https://www.youtube.com/@b", false)].
Proof.
  refine (proj1 (mark_completes_first_unmarked "https://www.youtube.com/@b"
                   [("https://www.youtube.com/@a", true);
                    ("https://www.youtube.com/@b", false);
                    ("https://www.youtube.com/@b", false)] _)
            [("https://www.youtube.com/@a", true)]
            [("https://www.youtube.com/@b", false)] eq_refl _).
  - repeat constructor.
  - intros [[=]|H%not_elem_of_nil]%elem_of_cons. done.
Defined.

Lemma insert_at_Permutation i text items :
  insert_at i text items ≡ₚ text :: items.
Proof.
  unfold insert_at. rewrite <- Permutation_middle.
  by rewrite list.take_drop.
Qed.

Lemma move_one_Permutation direction items i :
  (i < length items)%nat → move_one direction items i ≡ₚ items.
Proof.
  intros Hi. unfold move_one. destruct (_ && _); [|done].
  destruct (lookup_lt_is_Some_2 items i Hi) as [text Htext].
  rewrite Htext. simpl. rewrite insert_at_Permutation.
  symmetry. by apply delete_Permutation.
Qed.

Lemma foldl_move_one_Permutation direction indices :
  ∀ items,
    Forall (λ i, (i < length items)%nat) indices →
    foldl (move_one direction) items indices ≡ₚ items.
Proof.
  induction indices as [|i indices IH]; intros items Hall; [done|].
  apply Forall_cons in Hall as [Hi Hall]. simpl.
  pose proof (move_one_Permutation direction items i Hi) as Hperm.
  rewrite IH; [done|].
  eapply Forall_impl; [done|]. intros k Hk. simpl in Hk.
  by rewrite (Permutation_length Hperm).
Qed.

(** X25.  Moving the selected channels up or down never loses,
    duplicates or changes a channel: the list box holds the same texts
    afterwards, in another order. *)
Theorem move_item_Permutation direction selected_indices items :
  Forall (λ i, (i < length items)%nat) selected_indices →
  move_item direction selected_indices items ≡ₚ items.
Proof.
  intros Hall. unfold move_item. apply foldl_move_one_Permutation.
  destruct (direction =? -1)%Z; [done|]. by apply Forall_reverse.
Qed.

Lemma move_item_Permutation_witness :
  move_item 1 [0%nat; 1%nat] ["a"; "b"; "c"] ≡ₚ ["a"; "b"; "c"].
Proof.
  apply move_item_Permutation. repeat constructor.
Defined.

Lemma move_one_in_range direction items i j text :
  items !! i = Some text →
  (Z.of_nat i + direction = Z.of_nat j)%Z →
  (j < length items)%nat →
  move_one direction items i = insert_at j text (delete i items).
Proof.
  intros Htext Hj Hlt. unfold move_one. rewrite Hj, Nat2Z.id, Htext.
  assert ((0 <=? Z.of_nat j)%Z && (Z.of_nat j <? Z.of_nat (length items))%Z
          = true) as ->; [|done].
  rewrite andb_true_iff, Z.leb_le, Z.ltb_lt. lia.
Qed.

Lemma move_item_single direction i items :
  move_item direction [i] items = move_one direction items i.
Proof. unfold move_item. by destruct (direction =? -1)%Z. Qed.

(** X26.  Moving one selected channel up, or down, swaps it with its
    neighbour. *)
Theorem move_item_swaps above x y below :
  move_item (-1) [S (length above)] (above ++ x :: y :: below)
  = above ++ y :: x :: below
  ∧ move_item 1 [length above] (above ++ x :: y :: below)
    = above ++ y :: x :: below.
Proof.
  rewrite !move_item_single. split.
  - rewrite (move_one_in_range _ _ _ (length above) y).
    + replace (above ++ x :: y :: below) with ((above ++ [x]) ++ y :: below)
        by (by rewrite <- app_assoc).
      replace (S (length above)) with (length (above ++ [x]))
        by (rewrite length_app; simpl; lia).
      rewrite delete_middle. unfold insert_at.
      rewrite <- !app_assoc. simpl.
      rewrite (list.take_app_length' above) by done.
      by rewrite (list.drop_app_length' above).
    + replace (above ++ x :: y :: below) with ((above ++ [x]) ++ y :: below)
        by (by rewrite <- app_assoc).
      apply list_lookup_middle. rewrite length_app. simpl. lia.
    + lia.
    + rewrite length_app. simpl. lia.
  - rewrite (move_one_in_range _ _ _ (S (length above)) x).
    + rewrite delete_middle. unfold insert_at.
      replace (above ++ y :: below) with ((above ++ [y]) ++ below)
        by (by rewrite <- app_assoc).
      replace (S (length above)) with (length (above ++ [y]))
        by (rewrite length_app; simpl; lia).
      rewrite (list.take_app_length' (above ++ [y])) by done.
      rewrite (list.drop_app_length' (above ++ [y])) by done.
      by rewrite <- app_assoc.
    + by apply list_lookup_middle.
    + lia.
    + rewrite length_app. simpl. lia.
Qed.
